(** * Sigil: the EPUB exporter (src/Sigil/Exporters/ExportEPUB.cpp)

    A shallow embedding of [ExportEPUB]: the archive writer
    [SaveFolderAsEpubToLocation], the font pass [ObfuscateFonts], the
    manifest step [CreateEncryptionXML] and the orchestration in
    [WriteBook] and [CreatePublication].

    The exporter is a client of minizip, of Qt's file classes and of a few
    classes of Sigil itself.  Their calls are modelled as operations on an
    explicit [World]: the files on disk, the archive being written, the
    results the environment will give to the next library calls, what a
    read of freed memory finds, and the trace of calls made so far.  The
    exporter's own code is state passing over that world, with C++
    exceptions as the [Throw] result. *)

From Stdlib Require Import ZArith List String Ascii Strings.Byte Bool Lia.
From Stdlib Require Import DecimalString.
Import ListNotations.

Local Open Scope string_scope.
Local Open Scope Z_scope.

(* ================================================================== *)
(** * Part I. Definitions *)
(* ================================================================== *)

(** ** C and zlib basics *)

(** [unsigned int]: the value kept by an assignment to a 32-bit unsigned
    variable. *)
Definition to_uint32 (z : Z) : Z := z mod 2 ^ 32.

(** [strlen]: the bytes before the first NUL. *)
Fixpoint strlen (s : list byte) : Z :=
  match s with
  | [] => 0
  | b :: s' => if Byte.eqb b x00 then 0 else 1 + strlen s'
  end.

(** The first [len] bytes of a buffer, or all of it when it is shorter. *)
Fixpoint take (len : Z) (buf : list byte) : list byte :=
  match buf with
  | [] => []
  | b :: buf' => if len >? 0 then b :: take (len - 1) buf' else []
  end.

(** #define BUFF_SIZE 8192 *)
Definition BUFF_SIZE : Z := 8192.

(** zlib.h *)
Definition Z_OK : Z := 0.
Definition Z_NO_COMPRESSION : Z := 0.
Definition Z_DEFAULT_COMPRESSION : Z := -1.
Definition Z_DEFLATED : Z := 8.
Definition Z_DEFAULT_STRATEGY : Z := 0.
Definition MAX_WBITS : Z := 15.
Definition DEF_MEM_LEVEL : Z := 8.

(** zip.h *)
Definition ZIP_PARAMERROR : Z := -102.
Definition VERSIONMADEBY : Z := 0.

(** The level [deflateInit2] works at: [Z_DEFAULT_COMPRESSION] stands for
    level 6. *)
Definition effective_level (level : Z) : Z :=
  if level =? Z_DEFAULT_COMPRESSION then 6 else level.

(** ** QString *)

Module QString.

Definition isEmpty (s : string) : bool :=
  match s with EmptyString => true | _ => false end.

(** [s.startsWith(p)] *)
Definition startsWith (s p : string) : bool := String.prefix p s.

(** [s.remove(0, 1)] *)
Definition remove_first (s : string) : string :=
  match s with EmptyString => EmptyString | String _ s' => s' end.

(** The scan of [QString::remove(const QString &str)]: [indexOf] finds
    the next occurrence at or after the current position, the occurrence
    is cut out and the search goes on from the same position.  [skip]
    counts the characters of an occurrence still to be cut. *)
Fixpoint remove_scan (str : string) (skip : nat) (s : string) : string :=
  match s with
  | EmptyString => EmptyString
  | String c s' =>
      match skip with
      | S k => remove_scan str k s'
      | O =>
          if String.prefix str s
          then remove_scan str (Nat.pred (String.length str)) s'
          else String c (remove_scan str O s')
      end
  end.

(** [s.remove(str)]: every occurrence of [str] is removed; an empty
    [str] removes nothing. *)
Definition remove (s str : string) : string :=
  if isEmpty str then s else remove_scan str O s.


(** [s.toUtf8()], for the 8-bit strings the model uses. *)
Definition toUtf8 (s : string) : list byte := list_byte_of_string s.

End QString.

(** ** Exceptions (sigil_exception.h) *)

Inductive ExceptionKind := CannotOpenFile | CannotStoreFile | OtherFailure.

(** A boost exception with the error infos the exporter attaches:
    [errinfo_file_fullpath] and [errinfo_file_errorstring]. *)
Record Exception := mkException {
  exc_kind : ExceptionKind;
  errinfo_file_fullpath : string;
  errinfo_file_errorstring : option string
}.

Inductive Result (A : Type) :=
| Ok (a : A)
| Throw (e : Exception).
Arguments Ok {A} a.
Arguments Throw {A} e.

(** ** Files on disk *)

(** What one call of [QIODevice::read] hands over: some bytes, or an error
    (the call returns -1). *)
Inductive ReadResult :=
| ReadBytes (bytes : list byte)
| ReadError.

Inductive NodeKind := RegularFile | Directory.

(** A directory entry.  [fn_readable] is the permission [QDir::Readable]
    filters on, [fn_openable] whether [QFile::open] succeeds, [fn_reads]
    the results of the successive reads of the file, after which reads
    return 0 (end of file). *)
Record FileNode := mkFileNode {
  fn_kind : NodeKind;
  fn_readable : bool;
  fn_hidden : bool;
  fn_openable : bool;
  fn_reads : list ReadResult
}.

(** The file system: entries by absolute path, in iteration order. *)
Definition Files := list (string * FileNode).

Fixpoint lookup_file (path : string) (fs : Files) : option FileNode :=
  match fs with
  | [] => None
  | (p, n) :: fs' => if String.eqb p path then Some n else lookup_file path fs'
  end.

(** [path] lies under the directory [dir]. *)
Definition under (dir path : string) : bool :=
  String.prefix (dir ++ "/") path.

(** [s] without its first [n] characters. *)
Fixpoint drop (n : nat) (s : string) : string :=
  match n, s with
  | S n', String _ s' => drop n' s'
  | _, _ => s
  end.

(** The path of an entry relative to the directory [root] it lies under:
    what follows [root] and the separator. *)
Definition root_relative (root path : string) : string :=
  drop (S (String.length root)) path.

(** The bytes a file delivers when read to its end. *)
Fixpoint delivered (reads : list ReadResult) : list byte :=
  match reads with
  | [] => []
  | ReadBytes b :: reads' => b ++ delivered reads'
  | ReadError :: reads' => delivered reads'
  end.

Definition file_size (n : FileNode) : Z :=
  Z.of_nat (List.length (delivered (fn_reads n))).

(** ** The archive under construction (minizip) *)

(** The arguments of [zipOpenNewFileInZip4_64] that describe the entry. *)
Record EntryHeader := mkEntryHeader {
  eh_filename : string;
  eh_size_extrafield_local : Z;
  eh_size_extrafield_global : Z;
  eh_method : Z;
  eh_level : Z;
  eh_raw : Z;
  eh_windowBits : Z;
  eh_memLevel : Z;
  eh_strategy : Z;
  eh_versionMadeBy : Z;
  eh_flagBase : Z;
  eh_zip64 : Z
}.

Record ZipEntry := mkZipEntry {
  ze_header : EntryHeader;
  ze_data : list byte
}.

(** The state behind a [zipFile] handle: the entries already closed, in
    the order they were written, the entry currently open, and whether
    [zipClose] has been called. *)
Record zipFile := mkZipFile {
  zf_path : string;
  zf_done : list ZipEntry;
  zf_cur : option ZipEntry;
  zf_closed : bool
}.

Definition option_list {A} (o : option A) : list A :=
  match o with Some a => [a] | None => [] end.

(** The entries of the archive, first written first. *)
Definition zip_entries (zf : zipFile) : list ZipEntry :=
  zf_done zf ++ option_list (zf_cur zf).

Definition archive_entries (z : option zipFile) : list ZipEntry :=
  match z with Some zf => zip_entries zf | None => [] end.

(** ** Trace of library calls *)

Inductive Event :=
| Ev_zipOpen64 (path : string) (opened : bool)
| Ev_zipOpenNewFileInZip4_64 (h : EntryHeader) (rc : Z)
| Ev_zipWriteInFileInZip (len : Z) (rc : Z)
| Ev_zipCloseFileInZip (rc : Z)
| Ev_zipClose (rc : Z)
| Ev_QFile_open (path : string) (opened : bool)
| Ev_QFile_read (ret : Z)
| Ev_QFile_close
| Ev_QFile_copy (from to : string) (copied : bool)
| Ev_ObfuscateFile (path algorithm key : string).

(** ** The world *)

Record World := mkWorld {
  w_files : Files;
  (** scratch directories that exist *)
  w_tempdirs : list string;
  (** supply of fresh temporary names *)
  w_next_temp : nat;
  (** [Some msg]: [QTemporaryFile::open] fails with error string [msg] *)
  w_tmpfile_error : option string;
  (** results the next minizip calls return; [Z_OK] once used up *)
  w_zip_rcs : list Z;
  (** the archive handle; [None] is the NULL handle *)
  w_zip : option zipFile;
  (** calls made, the latest first *)
  w_trace : list Event;
  (** [true]: the system refuses to create a copy of a file (no
      permission, no space left) *)
  w_copy_refused : bool;
  (** what a read through a dangling pointer finds: the bytes at the
      address of a byte array that was freed, as they are by now *)
  w_freed : list byte
}.

Definition set_files (fs : Files) (w : World) : World :=
  mkWorld fs (w_tempdirs w) (w_next_temp w) (w_tmpfile_error w)
          (w_zip_rcs w) (w_zip w) (w_trace w) (w_copy_refused w) (w_freed w).

Definition set_temp (ds : list string) (n : nat) (w : World) : World :=
  mkWorld (w_files w) ds n (w_tmpfile_error w)
          (w_zip_rcs w) (w_zip w) (w_trace w) (w_copy_refused w) (w_freed w).

Definition set_zip_rcs (rcs : list Z) (w : World) : World :=
  mkWorld (w_files w) (w_tempdirs w) (w_next_temp w) (w_tmpfile_error w)
          rcs (w_zip w) (w_trace w) (w_copy_refused w) (w_freed w).

Definition set_zip (z : option zipFile) (w : World) : World :=
  mkWorld (w_files w) (w_tempdirs w) (w_next_temp w) (w_tmpfile_error w)
          (w_zip_rcs w) z (w_trace w) (w_copy_refused w) (w_freed w).

Definition set_copy_refused (refused : bool) (w : World) : World :=
  mkWorld (w_files w) (w_tempdirs w) (w_next_temp w) (w_tmpfile_error w)
          (w_zip_rcs w) (w_zip w) (w_trace w) refused (w_freed w).

Definition set_freed (bytes : list byte) (w : World) : World :=
  mkWorld (w_files w) (w_tempdirs w) (w_next_temp w) (w_tmpfile_error w)
          (w_zip_rcs w) (w_zip w) (w_trace w) (w_copy_refused w) bytes.

Definition log (ev : Event) (w : World) : World :=
  mkWorld (w_files w) (w_tempdirs w) (w_next_temp w) (w_tmpfile_error w)
          (w_zip_rcs w) (w_zip w) (ev :: w_trace w) (w_copy_refused w) (w_freed w).

(** The calls in the order they were made. *)
Definition calls (w : World) : list Event := rev (w_trace w).

(** ** The monad of the exporter: state and exceptions *)

Definition M (A : Type) : Type := World -> Result A * World.

Definition ret {A} (a : A) : M A := fun w => (Ok a, w).

Definition boost_throw {A} (e : Exception) : M A := fun w => (Throw e, w).

Definition bind {A B} (c : M A) (k : A -> M B) : M B :=
  fun w =>
    match c w with
    | (Ok a, w') => k a w'
    | (Throw e, w') => (Throw e, w')
    end.

Notation "x <- c ;; k" := (bind c (fun x => k))
  (at level 61, c at next level, right associativity).
Notation "c ;;; k" := (bind c (fun _ => k))
  (at level 61, right associativity).

(** A C++ object with a destructor: the destructor runs when the scope is
    left, normally or by an exception. *)
Definition scoped {R A} (ctor : M R) (dtor : R -> World -> World)
                  (body : R -> M A) : M A :=
  fun w =>
    match ctor w with
    | (Throw e, w1) => (Throw e, w1)
    | (Ok r, w1) => let (res, w2) := body r w1 in (res, dtor r w2)
    end.

Definition CannotOpenFile_at (path : string) : Exception :=
  mkException CannotOpenFile path None.

Definition CannotStoreFile_at (path : string) : Exception :=
  mkException CannotStoreFile path None.

(** ** minizip (zip.h)

    A call returns the next result the environment has in store; it
    changes the archive only when that result is [Z_OK].  The pointer
    arguments the exporter passes as NULL (file info, extra fields,
    comment, password) are left out. *)

Module Minizip.

Definition next_rc (w : World) : Z * World :=
  match w_zip_rcs w with
  | [] => (Z_OK, w)
  | rc :: rcs => (rc, set_zip_rcs rcs w)
  end.

(** [zipOpen64(path, APPEND_STATUS_CREATE)]; the result tells whether
    the handle is not NULL.  The call creates the archive file, or
    truncates it.  The model keeps the archive under construction in
    [w_zip], apart from [w_files]: an archive file that lies among the
    files the writer lists is not modelled. *)
Definition zipOpen64 (path : string) : M bool :=
  fun w =>
    let (rc, w1) := next_rc w in
    if rc =? Z_OK
    then (Ok true, log (Ev_zipOpen64 path true)
                       (set_zip (Some (mkZipFile path [] None false)) w1))
    else (Ok false, log (Ev_zipOpen64 path false) (set_zip None w1)).

(** A new entry starts; an entry still open is closed first. *)
Definition open_entry (h : EntryHeader) (zf : zipFile) : zipFile :=
  mkZipFile (zf_path zf) (zip_entries zf) (Some (mkZipEntry h [])) (zf_closed zf).

Definition zipOpenNewFileInZip4_64
    (filename : string) (size_extrafield_local size_extrafield_global : Z)
    (method level raw windowBits memLevel strategy : Z)
    (versionMadeBy flagBase zip64 : Z) : M Z :=
  fun w =>
    let h := mkEntryHeader filename size_extrafield_local size_extrafield_global
                           method level raw windowBits memLevel strategy
                           versionMadeBy flagBase zip64 in
    let (rc, w1) := next_rc w in
    match w_zip w1 with
    | None => (Ok ZIP_PARAMERROR, log (Ev_zipOpenNewFileInZip4_64 h ZIP_PARAMERROR) w1)
    | Some zf =>
        if rc =? Z_OK
        then (Ok rc, log (Ev_zipOpenNewFileInZip4_64 h rc)
                         (set_zip (Some (open_entry h zf)) w1))
        else (Ok rc, log (Ev_zipOpenNewFileInZip4_64 h rc) w1)
    end.

(** zip.c: [zipOpenNewFileInZip64] is [zipOpenNewFileInZip4_64] with the
    default deflate settings. *)
Definition zipOpenNewFileInZip64
    (filename : string) (size_extrafield_local size_extrafield_global : Z)
    (method level zip64 : Z) : M Z :=
  zipOpenNewFileInZip4_64 filename size_extrafield_local size_extrafield_global
                          method level 0 (- MAX_WBITS) DEF_MEM_LEVEL
                          Z_DEFAULT_STRATEGY VERSIONMADEBY 0 zip64.

Definition append_data (bytes : list byte) (e : ZipEntry) : ZipEntry :=
  mkZipEntry (ze_header e) (ze_data e ++ bytes).

(** [zipWriteInFileInZip(file, buf, len)]: [len] bytes starting at [buf]
    go to the open entry.  The model takes them from the buffer's
    content.  With a [len] beyond the buffer's size the library reads
    past the end of the buffer: that is not modelled, and statements
    about the bytes of an entry are made for writes that stay inside the
    buffer. *)
Definition zipWriteInFileInZip (buf : list byte) (len : Z) : M Z :=
  fun w =>
    let (rc, w1) := next_rc w in
    match w_zip w1 with
    | Some (mkZipFile path done (Some e) closed) =>
        if rc =? Z_OK
        then (Ok rc, log (Ev_zipWriteInFileInZip len rc)
                         (set_zip (Some (mkZipFile path done
                                          (Some (append_data (take len buf) e))
                                          closed)) w1))
        else (Ok rc, log (Ev_zipWriteInFileInZip len rc) w1)
    | _ => (Ok ZIP_PARAMERROR, log (Ev_zipWriteInFileInZip len ZIP_PARAMERROR) w1)
    end.

(** [zipCloseFileInZip]: afterwards no entry is open, whatever the
    result.  The model lists the entry among those written in either
    case; whether the file holds a usable entry after a close that failed
    is not modelled, and statements about what an archive holds are made
    for runs in which no close failed. *)
Definition zipCloseFileInZip : M Z :=
  fun w =>
    let (rc, w1) := next_rc w in
    match w_zip w1 with
    | Some (mkZipFile path done (Some e) closed) =>
        (Ok rc, log (Ev_zipCloseFileInZip rc)
                    (set_zip (Some (mkZipFile path (done ++ [e]) None closed)) w1))
    | _ => (Ok ZIP_PARAMERROR, log (Ev_zipCloseFileInZip ZIP_PARAMERROR) w1)
    end.

(** [zipClose(file, NULL)]: an entry still open is closed and the handle
    is released, whatever the result.  As for [zipCloseFileInZip], what
    the file holds after a close that failed is not modelled. *)
Definition zipClose : M Z :=
  fun w =>
    let (rc, w1) := next_rc w in
    match w_zip w1 with
    | Some zf =>
        (Ok rc, log (Ev_zipClose rc)
                    (set_zip (Some (mkZipFile (zf_path zf) (zip_entries zf) None true)) w1))
    | None => (Ok ZIP_PARAMERROR, log (Ev_zipClose ZIP_PARAMERROR) w1)
    end.

End Minizip.

(** ** Qt: QDir, QDirIterator, QFile *)

Module Qt.

Inductive QDirFilter :=
| QDir_Dirs | QDir_Files | QDir_NoDotAndDotDot | QDir_Readable | QDir_Hidden.

Definition QDirFilter_eqb (a b : QDirFilter) : bool :=
  match a, b with
  | QDir_Dirs, QDir_Dirs | QDir_Files, QDir_Files
  | QDir_NoDotAndDotDot, QDir_NoDotAndDotDot
  | QDir_Readable, QDir_Readable | QDir_Hidden, QDir_Hidden => true
  | _, _ => false
  end.

Definition has (f : QDirFilter) (filters : list QDirFilter) : bool :=
  existsb (QDirFilter_eqb f) filters.

(** An entry passes the filters: its kind is asked for, it is readable
    when [Readable] is set, and hidden entries need [Hidden]. *)
Definition passes (filters : list QDirFilter) (n : FileNode) : bool :=
  match fn_kind n with
  | RegularFile => has QDir_Files filters
  | Directory => has QDir_Dirs filters
  end
  && (negb (has QDir_Readable filters) || fn_readable n)
  && (negb (fn_hidden n) || has QDir_Hidden filters).

(** [QDirIterator it(path, filters, QDirIterator::Subdirectories)]: the
    entries below [path] that pass the filters, in iteration order.
    [it.filePath()] of an entry is its absolute path: [path], a
    separator and the path relative to [path]. *)
Definition QDirIterator (path : string) (filters : list QDirFilter)
  : M (list (string * FileNode)) :=
  fun w =>
    (Ok (filter (fun e => under path (fst e) && passes filters (snd e))
                (w_files w)), w).

(** [it.fileName()]: what follows the last separator of the path. *)
Fixpoint fileName_from (acc path : string) : string :=
  match path with
  | EmptyString => acc
  | String c path' =>
      if Ascii.eqb c "/" then fileName_from EmptyString path'
      else fileName_from (acc ++ String c EmptyString) path'
  end.

Definition fileName (path : string) : string := fileName_from EmptyString path.

(** [QDir::toNativeSeparators], outside Windows. *)
Definition toNativeSeparators (path : string) : string := path.

(** [dfile.open(QIODevice::ReadOnly)]: the reads the open file will
    give, or [None] when it cannot be opened. *)
Definition QFile_open (path : string) : M (option (list ReadResult)) :=
  fun w =>
    match lookup_file path (w_files w) with
    | Some n =>
        if fn_openable n
        then (Ok (Some (fn_reads n)), log (Ev_QFile_open path true) w)
        else (Ok None, log (Ev_QFile_open path false) w)
    | None => (Ok None, log (Ev_QFile_open path false) w)
    end.

(** The buffer after [bytes] were stored at its start. *)
Definition overwrite (buff bytes : list byte) : list byte :=
  bytes ++ skipn (List.length bytes) buff.

(** [dfile.read(buff, maxSize)] when the device hands over [r]: the
    number of bytes read, or -1, and the buffer afterwards. *)
Definition QFile_read (r : ReadResult) (buff : list byte) (maxSize : Z)
  : M (Z * list byte) :=
  fun w =>
    match r with
    | ReadBytes b =>
        let got := take maxSize b in
        let n := Z.of_nat (List.length got) in
        (Ok (n, overwrite buff got), log (Ev_QFile_read n) w)
    | ReadError => (Ok (-1, buff), log (Ev_QFile_read (-1)) w)
    end.

(** [dfile.read] at the end of the file. *)
Definition QFile_read_at_end : M Z :=
  fun w => (Ok 0, log (Ev_QFile_read 0) w).

Definition QFile_close : M unit :=
  fun w => (Ok tt, log Ev_QFile_close w).

(** A separator occurs in [s]. *)
Fixpoint has_separator (s : string) : bool :=
  match s with
  | EmptyString => false
  | String c s' => Ascii.eqb c "/" || has_separator s'
  end.

(** [QFileInfo(path).path()]: the path without its last component and
    the separator before it. *)
Fixpoint folder_of (path : string) : string :=
  match path with
  | EmptyString => EmptyString
  | String c rest =>
      if has_separator rest then String c (folder_of rest) else EmptyString
  end.

(** The folder [dir] exists: it is listed as a directory, or an entry
    lies below it. *)
Definition folder_exists (dir : string) (fs : Files) : bool :=
  existsb (fun e => under dir (fst e)
                    || (String.eqb (fst e) dir
                        && match fn_kind (snd e) with
                           | Directory => true
                           | RegularFile => false
                           end))
          fs.

(** [QFile::copy(fileName, newName)]: fails when [fileName] does not
    exist, when [newName] already does (nothing is overwritten), when
    the folder [newName] is to lie in does not exist, and when the
    system refuses to create the copy. *)
Definition QFile_copy (fileName newName : string) : M bool :=
  fun w =>
    match lookup_file fileName (w_files w), lookup_file newName (w_files w) with
    | Some n, None =>
        if folder_exists (folder_of newName) (w_files w)
           && negb (w_copy_refused w)
        then (Ok true, log (Ev_QFile_copy fileName newName true)
                           (set_files (w_files w ++ [(newName, n)])%list w))
        else (Ok false, log (Ev_QFile_copy fileName newName false) w)
    | _, _ => (Ok false, log (Ev_QFile_copy fileName newName false) w)
    end.

(** [const char *p = s.toUtf8().constData();]: the [QByteArray] that
    [toUtf8] returns is a temporary, destroyed at the end of the
    statement, so [p] points to memory that was freed.  Reading through
    [p] afterwards finds what is at that address by then, which need not
    be [bytes]. *)
Definition constData_of_temporary (bytes : list byte) : M (list byte) :=
  fun w => (Ok (w_freed w), w).

End Qt.

(** ** ExportEPUB.cpp: the archive writer *)

Import Minizip Qt.

Definition EPUB_MIME_TYPE : string := "application/epub+zip".

Definition OPF_FILE_NAME : string := "content.opf".
Definition NCX_FILE_NAME : string := "toc.ncx".
Definition CONTAINER_XML_FILE_NAME : string := "container.xml".
Definition ENCRYPTION_XML_FILE_NAME : string := "encryption.xml".

Definition METAINF_FOLDER_SUFFIX : string := "/META-INF".
Definition OEBPS_FOLDER_SUFFIX : string := "/OEBPS".

(** [char buff[BUFF_SIZE] = {0}] *)
Definition zeroed_buffer : list byte := repeat x00 (Z.to_nat BUFF_SIZE).

(** [while (relpath.startsWith("/")) relpath = relpath.remove(0, 1);] *)
Fixpoint strip_leading_slashes (relpath : string) : string :=
  match relpath with
  | String c rest =>
      if Ascii.eqb c "/" then strip_leading_slashes rest else relpath
  | EmptyString => relpath
  end.

(** [QString relpath = it.filePath().remove(fullfolderpath);] and the loop
    that strips the leading separators. *)
Definition relpath_of (fullfolderpath filePath : string) : string :=
  strip_leading_slashes (QString.remove filePath fullfolderpath).

(** Lines 167-176: the loop that copies the file on disk into the open
    entry.  [read] is an [unsigned int]; the result is its value when the
    loop ends. *)
Fixpoint write_file_data (relpath : string) (reads : list ReadResult)
                         (buff : list byte) : M Z :=
  match reads with
  | [] =>
      n <- QFile_read_at_end ;;
      ret (to_uint32 n)
  | r :: reads' =>
      nb <- QFile_read r buff BUFF_SIZE ;;
      let read := to_uint32 (fst nb) in
      if read >? 0 then
        rc <- zipWriteInFileInZip (snd nb) read ;;
        if negb (rc =? Z_OK) then
          QFile_close ;;;
          zipCloseFileInZip ;;;
          zipClose ;;;
          boost_throw (CannotStoreFile_at relpath)
        else write_file_data relpath reads' (snd nb)
      else ret read
  end.

(** Lines 145-188: the body of the loop over the directory, for the entry
    [it] stands at. *)
Definition add_file_entry (fullfolderpath : string) (it : string * FileNode)
  : M unit :=
  let filePath := fst it in
  let relpath := relpath_of fullfolderpath filePath in
  rc <- zipOpenNewFileInZip4_64 relpath 0 0 Z_DEFLATED 8 0 15 8
                                Z_DEFAULT_STRATEGY 0 0x800 0 ;;
  if negb (rc =? Z_OK) then
    zipClose ;;;
    boost_throw (CannotStoreFile_at relpath)
  else
    dfile <- QFile_open filePath ;;
    match dfile with
    | None =>
        zipCloseFileInZip ;;;
        zipClose ;;;
        boost_throw (CannotOpenFile_at (fileName filePath))
    | Some reads =>
        read <- write_file_data relpath reads zeroed_buffer ;;
        QFile_close ;;;
        if read <? 0 then
          zipCloseFileInZip ;;;
          zipClose ;;;
          boost_throw (CannotStoreFile_at relpath)
        else
          rc <- zipCloseFileInZip ;;
          if negb (rc =? Z_OK) then
            zipClose ;;;
            boost_throw (CannotStoreFile_at relpath)
          else ret tt
    end.

(** [while (it.hasNext()) { it.next(); ... }] *)
Fixpoint add_file_entries (fullfolderpath : string)
                          (entries : list (string * FileNode)) : M unit :=
  match entries with
  | [] => ret tt
  | it :: entries' =>
      add_file_entry fullfolderpath it ;;;
      add_file_entries fullfolderpath entries'
  end.

Definition archive_filters : list QDirFilter :=
  [QDir_Files; QDir_NoDotAndDotDot; QDir_Readable; QDir_Hidden].

Definition SaveFolderAsEpubToLocation (fullfolderpath fullfilepath : string)
  : M unit :=
  zfile <- zipOpen64 (toNativeSeparators fullfilepath) ;;
  if negb zfile then
    boost_throw (CannotOpenFile_at fullfilepath)
  else
    rc <- zipOpenNewFileInZip64 "mimetype" 0 0 Z_NO_COMPRESSION 0 0 ;;
    if negb (rc =? Z_OK) then
      zipClose ;;;
      boost_throw (CannotStoreFile_at "mimetype")
    else
      mime_data <- constData_of_temporary (QString.toUtf8 EPUB_MIME_TYPE) ;;
      rc <- zipWriteInFileInZip mime_data (strlen mime_data) ;;
      if negb (rc =? Z_OK) then
        zipCloseFileInZip ;;;
        zipClose ;;;
        boost_throw (CannotStoreFile_at "mimetype")
      else
        zipCloseFileInZip ;;;
        entries <- QDirIterator fullfolderpath archive_filters ;;
        add_file_entries fullfolderpath entries ;;;
        zipClose ;;;
        ret tt.

(** ** Temporary files and folders *)

(** The [n]-th temporary name below [base]. *)
Definition temp_name (base : string) (n : nat) : string :=
  base ++ NilEmpty.string_of_uint (Nat.to_uint n).

(** The reads of a file with the given content, for a reader that asks
    for [BUFF_SIZE] bytes at a time. *)
Fixpoint chunks_of (fuel size : nat) (bytes : list byte) : list ReadResult :=
  match fuel, bytes with
  | S fuel', _ :: _ =>
      ReadBytes (firstn size bytes) :: chunks_of fuel' size (skipn size bytes)
  | _, _ => []
  end.

Definition reads_of_content (bytes : list byte) : list ReadResult :=
  chunks_of (List.length bytes) (Z.to_nat BUFF_SIZE) bytes.

Definition remove_file (path : string) (fs : Files) : Files :=
  filter (fun e => negb (String.eqb (fst e) path)) fs.

Definition write_content (path : string) (bytes : list byte) (fs : Files) : Files :=
  map (fun e =>
         if String.eqb (fst e) path
         then (fst e, mkFileNode RegularFile true false true (reads_of_content bytes))
         else e) fs.

Module QTemporaryFile.

(** [QTemporaryFile file;]: the object, standing for the name its file
    gets when it is opened. *)
Definition ctor : M string :=
  fun w =>
    (Ok (temp_name "/tmp/qt_temp." (w_next_temp w)),
     set_temp (w_tempdirs w) (S (w_next_temp w)) w).

(** [file.open()]: creates the empty file, unless the environment makes
    it fail. *)
Definition open (file : string) : M bool :=
  fun w =>
    match w_tmpfile_error w with
    | Some _ => (Ok false, w)
    | None =>
        (Ok true,
         set_files (w_files w ++ [(file, mkFileNode RegularFile true false true [])])%list w)
    end.

(** [file.fileName()] of a file that was not opened is empty. *)
Definition fileName_unopened : string := EmptyString.

Definition errorString : M string :=
  fun w =>
    (Ok (match w_tmpfile_error w with Some msg => msg | None => EmptyString end), w).

(** The bytes a writer sends to the file, flushed. *)
Definition write (file : string) (bytes : list byte) : M unit :=
  fun w => (Ok tt, set_files (write_content file bytes (w_files w)) w).

(** The destructor removes the file. *)
Definition dtor (file : string) (w : World) : World :=
  set_files (remove_file file (w_files w)) w.

End QTemporaryFile.

(** Misc/TempFolder.h is not among the sources; the scratch directory of
    an export is modelled from what the spec says of it. *)
Module TempFolder.

Definition path_for (n : nat) : string := temp_name "/tmp/Sigil/scratchpad/" n.

(** Modelled from the spec: the constructor of Misc/TempFolder.h, which
    is not among the sources.  "The temporary directory is scoped:
    created at the start of export"; "created fresh, never reused".  It
    creates a fresh scratch directory and stands for its path. *)
Definition ctor : M string :=
  fun w =>
    let path := path_for (w_next_temp w) in
    (Ok path, set_temp (path :: w_tempdirs w) (S (w_next_temp w)) w).

Definition GetPath (tempfolder : string) : string := tempfolder.

(** Modelled from the spec: the destructor of Misc/TempFolder.h, which
    is not among the sources.  "Guaranteed removed on every exit path";
    "always removed before the call returns, including on error".  It
    removes the directory and what it holds. *)
Definition dtor (tempfolder : string) (w : World) : World :=
  set_temp (filter (fun d => negb (String.eqb d tempfolder)) (w_tempdirs w))
           (w_next_temp w)
           (set_files (filter (fun e => negb (under tempfolder (fst e))) (w_files w)) w).

End TempFolder.

(** ** The book and the collaborators of the exporter *)

(** ResourceObjects/FontResource.h: what the exporter asks of a font. *)
Record FontResource := mkFontResource {
  GetObfuscationAlgorithm : string;
  GetRelativePathToRoot : string
}.

(** The classes of Sigil the exporter calls and whose code is elsewhere:
    the book, [Utility], [FontObfuscation], [EncryptionXmlWriter], and the
    constant [ADOBE_FONT_ALGO_ID] of sigil_constants.h.  The calls that
    touch the disk work on the files and may throw. *)
Class BookModel (Book : Type) := {
  HasObfuscatedFonts : Book -> bool;
  EnsureUUIDIdentifierPresent : Book -> Book;
  AddSigilVersionMeta : Book -> Book;
  SaveAllResourcesToDisk : Book -> Files -> option Exception * Files;
  GetFullPathToMainFolder : Book -> string;
  GetUUIDIdentifierValue : Book -> string;
  GetPublicationIdentifier : Book -> string;
  GetFontResources : Book -> list FontResource;
  EncryptionXmlWriter_WriteXML : Book -> list byte;
  Utility_CopyFiles : string -> string -> Files -> option Exception * Files;
  FontObfuscation_ObfuscateFile :
    string -> string -> string -> Files -> option Exception * Files;
  ADOBE_FONT_ALGO_ID : string
}.

(** A collaborator call on the files, as a step of the exporter. *)
Definition on_files (f : Files -> option Exception * Files) : M unit :=
  fun w =>
    let (e, fs) := f (w_files w) in
    (match e with None => Ok tt | Some e => Throw e end, set_files fs w).

(** [foreach( x, xs ) body] *)
Fixpoint foreach {A} (xs : list A) (body : A -> M unit) : M unit :=
  match xs with
  | [] => ret tt
  | x :: xs' => body x ;;; foreach xs' body
  end.

Section Exporter.

Context {Book : Type} {BM : BookModel Book}.

(** The exporter object. *)
Record ExportEPUB := mkExportEPUB {
  m_FullFilePath : string;
  m_Book : Book
}.

(** [FontObfuscation::ObfuscateFile( path, algorithm, key )] *)
Definition ObfuscateFile (path algorithm key : string) : M unit :=
  fun w =>
    on_files (FontObfuscation_ObfuscateFile path algorithm key)
             (log (Ev_ObfuscateFile path algorithm key) w).

(** The body of the [foreach] of [ObfuscateFonts]. *)
Definition obfuscate_font (uuid_id main_id fullfolderpath : string)
                          (font_resource : FontResource) : M unit :=
  let algorithm := GetObfuscationAlgorithm font_resource in
  if QString.isEmpty algorithm then
    ret tt
  else
    let font_path := fullfolderpath ++ "/" ++ GetRelativePathToRoot font_resource in
    if String.eqb algorithm ADOBE_FONT_ALGO_ID then
      ObfuscateFile font_path algorithm uuid_id
    else
      ObfuscateFile font_path algorithm main_id.

Definition ObfuscateFonts (book : Book) (fullfolderpath : string) : M unit :=
  let uuid_id := GetUUIDIdentifierValue book in
  let main_id := GetPublicationIdentifier book in
  let font_resources := GetFontResources book in
  foreach font_resources (obfuscate_font uuid_id main_id fullfolderpath).

Definition CreateEncryptionXML (book : Book) (fullfolderpath : string) : M unit :=
  scoped QTemporaryFile.ctor QTemporaryFile.dtor (fun file =>
    opened <- QTemporaryFile.open file ;;
    (if negb opened then
       msg <- QTemporaryFile.errorString ;;
       boost_throw (mkException CannotOpenFile QTemporaryFile.fileName_unopened (Some msg))
     else ret tt) ;;;
    QTemporaryFile.write file (EncryptionXmlWriter_WriteXML book) ;;;
    QFile_copy file (fullfolderpath ++ "/" ++ ENCRYPTION_XML_FILE_NAME) ;;;
    ret tt).

Definition CreatePublication (book : Book) (fullfolderpath : string) : M unit :=
  on_files (Utility_CopyFiles (GetFullPathToMainFolder book) fullfolderpath) ;;;
  if HasObfuscatedFonts book then
    CreateEncryptionXML book (fullfolderpath ++ METAINF_FOLDER_SUFFIX)
  else ret tt.

Definition WriteBook (this : ExportEPUB) : M unit :=
  let book := m_Book this in
  let book :=
    if HasObfuscatedFonts book then EnsureUUIDIdentifierPresent book else book in
  let book := AddSigilVersionMeta book in
  on_files (SaveAllResourcesToDisk book) ;;;
  scoped TempFolder.ctor TempFolder.dtor (fun tempfolder =>
    CreatePublication book (TempFolder.GetPath tempfolder) ;;;
    (if HasObfuscatedFonts book then
       ObfuscateFonts book (TempFolder.GetPath tempfolder)
     else ret tt) ;;;
    SaveFolderAsEpubToLocation (TempFolder.GetPath tempfolder) (m_FullFilePath this)).

End Exporter.

Arguments ExportEPUB : clear implicits.

(** ** Notions the statements use *)

(** The header of the entry line 130 opens. *)
Definition mimetype_header : EntryHeader :=
  mkEntryHeader "mimetype" 0 0 Z_NO_COMPRESSION 0 0 (- MAX_WBITS) DEF_MEM_LEVEL
                Z_DEFAULT_STRATEGY VERSIONMADEBY 0 0.

(** The header of the entry line 153 opens for [relpath]. *)
Definition file_header (relpath : string) : EntryHeader :=
  mkEntryHeader relpath 0 0 Z_DEFLATED 8 0 15 8 Z_DEFAULT_STRATEGY 0 0x800 0.

(** The entries of the archive that follow the first one. *)
Definition later_entries (w : World) : list ZipEntry :=
  tl (archive_entries (w_zip w)).

Definition entry_name (e : ZipEntry) : string := eh_filename (ze_header e).

(** The entries of the file system the iterator of line 143 visits below
    [root]. *)
Definition visited (root : string) (fs : Files) : list (string * FileNode) :=
  filter (fun e => under root (fst e) && passes archive_filters (snd e)) fs.





(** The content line 134 means for the first entry. *)
Definition mimetype_content : list byte := QString.toUtf8 "application/epub+zip".

(** The C string at [mem]: the bytes before the first NUL. *)
Definition c_string (mem : list byte) : list byte := take (strlen mem) mem.

(** The memory [mime_data] points to still holds the MIME type string
    when line 135 reads it. *)
Definition mime_data_intact (w : World) : Prop :=
  c_string (w_freed w) = QString.toUtf8 EPUB_MIME_TYPE.

(** A close of an entry or of the archive that failed. *)
Definition failed_close (ev : Event) : bool :=
  match ev with
  | Ev_zipCloseFileInZip rc | Ev_zipClose rc => negb (rc =? Z_OK)
  | _ => false
  end.

(** Among the calls made from [w] to [w'], no close of an entry or of
    the archive failed. *)
Definition closes_succeeded (w w' : World) : Prop :=
  exists added,
    w_trace w' = (added ++ w_trace w)%list /\
    forallb (fun ev => negb (failed_close ev)) added = true.

(** ** Properties of an archive, as the specification words them *)


(** Every entry after the first asks for the ZIP64 entry header. *)
Definition zip64_requested (w : World) : Prop :=
  Forall (fun e => eh_zip64 (ze_header e) <> 0) (later_entries w).

(** Every entry after the first is deflated at the default level. *)
Definition deflated_at_default_level (w : World) : Prop :=
  Forall (fun e => eh_method (ze_header e) = Z_DEFLATED /\
                   effective_level (eh_level (ze_header e))
                   = effective_level Z_DEFAULT_COMPRESSION)
         (later_entries w).


(** ** The font pass, as the specification words it *)

Section FontPass.

Context {Book : Type} {BM : BookModel Book}.
Variables (book : Book) (fullfolderpath : string).

(** Where the staged copy of a font lies. *)
Definition font_path (font_resource : FontResource) : string :=
  fullfolderpath ++ "/" ++ GetRelativePathToRoot font_resource.

(** The calls of [FontObfuscation::ObfuscateFile] a font resource gives
    rise to: none when its algorithm tag is empty; one keyed by the
    UUID identifier when the tag is the Adobe one; one keyed by the
    publication identifier for any other tag. *)
Inductive handled_as : FontResource -> list Event -> Prop :=
| handled_skipped font_resource :
    GetObfuscationAlgorithm font_resource = EmptyString ->
    handled_as font_resource []
| handled_uuid_keyed font_resource :
    GetObfuscationAlgorithm font_resource <> EmptyString ->
    GetObfuscationAlgorithm font_resource = ADOBE_FONT_ALGO_ID ->
    handled_as font_resource
      [Ev_ObfuscateFile (font_path font_resource)
                        (GetObfuscationAlgorithm font_resource)
                        (GetUUIDIdentifierValue book)]
| handled_publication_keyed font_resource :
    GetObfuscationAlgorithm font_resource <> EmptyString ->
    GetObfuscationAlgorithm font_resource <> ADOBE_FONT_ALGO_ID ->
    handled_as font_resource
      [Ev_ObfuscateFile (font_path font_resource)
                        (GetObfuscationAlgorithm font_resource)
                        (GetPublicationIdentifier book)].

(** What becomes of the files for one font resource: with an empty
    algorithm tag they stay as they are and there is no error; with the
    Adobe tag they are what [FontObfuscation::ObfuscateFile] makes of
    them with the UUID identifier as the key; with any other tag, what
    it makes of them with the publication identifier as the key.  The
    first component is the exception of the obfuscation, if it throws. *)
Inductive font_obfuscated : FontResource -> Files -> option Exception * Files -> Prop :=
| font_skipped font_resource fs :
    GetObfuscationAlgorithm font_resource = EmptyString ->
    font_obfuscated font_resource fs (None, fs)
| font_uuid_keyed font_resource fs :
    GetObfuscationAlgorithm font_resource <> EmptyString ->
    GetObfuscationAlgorithm font_resource = ADOBE_FONT_ALGO_ID ->
    font_obfuscated font_resource fs
      (FontObfuscation_ObfuscateFile (font_path font_resource)
         (GetObfuscationAlgorithm font_resource) (GetUUIDIdentifierValue book) fs)
| font_publication_keyed font_resource fs :
    GetObfuscationAlgorithm font_resource <> EmptyString ->
    GetObfuscationAlgorithm font_resource <> ADOBE_FONT_ALGO_ID ->
    font_obfuscated font_resource fs
      (FontObfuscation_ObfuscateFile (font_path font_resource)
         (GetObfuscationAlgorithm font_resource) (GetPublicationIdentifier book) fs).

(** The pass over the font resources on the files, in order.  It ends
    after the last resource; or with the exception of the first
    obfuscation that throws, handed on as it is, with the files as that
    obfuscation left them and the later resources untouched. *)
Inductive font_pass : list FontResource -> Files -> Result unit -> Files -> Prop :=
| pass_done fs :
    font_pass [] fs (Ok tt) fs
| pass_next font_resource rest fs fs1 r fs' :
    font_obfuscated font_resource fs (None, fs1) ->
    font_pass rest fs1 r fs' ->
    font_pass (font_resource :: rest) fs r fs'
| pass_thrown font_resource rest fs e fs1 :
    font_obfuscated font_resource fs (Some e, fs1) ->
    font_pass (font_resource :: rest) fs (Throw e) fs1.

(** The exception [e] comes out of [FontObfuscation::ObfuscateFile],
    called for the font resource [font_resource]. *)
Definition thrown_obfuscating (font_resource : FontResource) (e : Exception) : Prop :=
  GetObfuscationAlgorithm font_resource <> EmptyString /\
  exists key fs,
    fst (FontObfuscation_ObfuscateFile (font_path font_resource)
           (GetObfuscationAlgorithm font_resource) key fs) = Some e.

End FontPass.

(** ** Scenarios *)

(** A readable regular file whose reads give [reads]. *)
Definition plain_file (reads : list ReadResult) : FileNode :=
  mkFileNode RegularFile true false true reads.

(** A world with the files [fs] in which no library call fails, and in
    which the memory of the freed byte array still holds the MIME type
    string and the NUL after it. *)
Definition quiet_world (fs : Files) : World :=
  mkWorld fs [] O None [] None [] false
          (QString.toUtf8 EPUB_MIME_TYPE ++ [x00])%list.

(** A staged directory without files. *)
Definition empty_stage : World := quiet_world [].

(** The staged directory of the specification's scenario: content.opf of
    42 bytes and Text/chapter1.xhtml of 900 bytes. *)
Definition two_files_stage : World :=
  quiet_world
    [("/stage/content.opf", plain_file [ReadBytes (repeat "o"%byte 42)]);
     ("/stage/Text/chapter1.xhtml", plain_file [ReadBytes (repeat "x"%byte 900)])].


(** A staged directory with a file whose first read fails. *)
Definition read_error_stage : World :=
  quiet_world [("/stage/a.txt", plain_file [ReadError])].

(** A staged directory with a listed file that cannot be opened. *)
Definition unopenable_stage : World :=
  quiet_world
    [("/stage/Text/chapter1.xhtml", mkFileNode RegularFile true false false [])].

(** A staged directory whose own path occurs again below it. *)
Definition nested_stage : World :=
  quiet_world [("/t/a/t/b", plain_file [ReadBytes ["b"%byte]])].

(** A book for the scenarios: its fonts, its two identifiers and the
    folder its resources are kept in. *)
Record SampleBook := mkSampleBook {
  sb_fonts : list FontResource;
  sb_uuid : string;
  sb_publication_id : string;
  sb_main_folder : string
}.

(** A copy of the folder [from] to the folder [to]. *)
Definition sample_copy (from to : string) (fs : Files) : option Exception * Files :=
  (None,
   List.app fs
            (map (fun e => (to ++ drop (String.length from) (fst e), snd e))
                 (filter (fun e => under from (fst e)) fs))).

(** An obfuscation that fails when the font is not there. *)
Definition sample_obfuscate (path algorithm key : string) (fs : Files)
  : option Exception * Files :=
  match lookup_file path fs with
  | Some _ => (None, fs)
  | None => (Some (CannotOpenFile_at path), fs)
  end.

#[export] Instance SampleBookModel : BookModel SampleBook := {|
  HasObfuscatedFonts b :=
    existsb (fun f => negb (QString.isEmpty (GetObfuscationAlgorithm f))) (sb_fonts b);
  EnsureUUIDIdentifierPresent b :=
    if QString.isEmpty (sb_uuid b)
    then mkSampleBook (sb_fonts b) "urn:uuid:0" (sb_publication_id b) (sb_main_folder b)
    else b;
  AddSigilVersionMeta b := b;
  SaveAllResourcesToDisk b fs := (None, fs);
  GetFullPathToMainFolder := sb_main_folder;
  GetUUIDIdentifierValue := sb_uuid;
  GetPublicationIdentifier := sb_publication_id;
  GetFontResources := sb_fonts;
  EncryptionXmlWriter_WriteXML b := QString.toUtf8 "<encryption/>";
  Utility_CopyFiles := sample_copy;
  FontObfuscation_ObfuscateFile := sample_obfuscate;
  ADOBE_FONT_ALGO_ID := "http://ns.adobe.com/pdf/enc#RC"
|}.

(** An obfuscation that leaves a mark: it fails when the font is not
    there, and otherwise replaces the content of the font by the key it
    was given, so that the key used can be read off the file. *)
Definition keyed_obfuscate (path algorithm key : string) (fs : Files)
  : option Exception * Files :=
  match lookup_file path fs with
  | Some _ => (None, write_content path (QString.toUtf8 key) fs)
  | None => (Some (CannotOpenFile_at path), fs)
  end.

(** Collaborators like those of [SampleBookModel], with the obfuscation
    that leaves a mark. *)
Definition keyed_model : BookModel SampleBook := {|
  HasObfuscatedFonts := @HasObfuscatedFonts SampleBook SampleBookModel;
  EnsureUUIDIdentifierPresent := @EnsureUUIDIdentifierPresent SampleBook SampleBookModel;
  AddSigilVersionMeta b := b;
  SaveAllResourcesToDisk b fs := (None, fs);
  GetFullPathToMainFolder := sb_main_folder;
  GetUUIDIdentifierValue := sb_uuid;
  GetPublicationIdentifier := sb_publication_id;
  GetFontResources := sb_fonts;
  EncryptionXmlWriter_WriteXML b := QString.toUtf8 "<encryption/>";
  Utility_CopyFiles := sample_copy;
  FontObfuscation_ObfuscateFile := keyed_obfuscate;
  ADOBE_FONT_ALGO_ID := "http://ns.adobe.com/pdf/enc#RC"
|}.

(** A font with an algorithm tag that is neither of the known ones. *)
Definition odd_font : FontResource :=
  mkFontResource "http://example.org/some-other-algorithm" "Fonts/a.otf".

Definition odd_font_book : SampleBook :=
  mkSampleBook [odd_font] "urn:uuid:ABCDEF" "publication-id" "/book".

Definition odd_font_stage : World :=
  quiet_world [("/stage/Fonts/a.otf", plain_file [ReadBytes ["f"%byte]])].

(** A book with three fonts: one without algorithm tag, one with the
    Adobe tag, one with the IDPF tag; and the staged copies of the
    fonts. *)
Definition three_fonts_book : SampleBook :=
  mkSampleBook [mkFontResource EmptyString "Fonts/plain.otf";
                mkFontResource "http://ns.adobe.com/pdf/enc#RC" "Fonts/adobe.otf";
                mkFontResource "http://www.idpf.org/2008/embedding" "Fonts/idpf.otf"]
               "urn:uuid:ABCDEF" "publication-id" "/book".

Definition three_fonts_stage : World :=
  quiet_world [("/stage/Fonts/plain.otf", plain_file [ReadBytes ["p"%byte]]);
               ("/stage/Fonts/adobe.otf", plain_file [ReadBytes ["a"%byte]]);
               ("/stage/Fonts/idpf.otf", plain_file [ReadBytes ["i"%byte]])].

(** The same staged directory without the copy of the Adobe font. *)
Definition missing_font_stage : World :=
  quiet_world [("/stage/Fonts/plain.otf", plain_file [ReadBytes ["p"%byte]]);
               ("/stage/Fonts/idpf.otf", plain_file [ReadBytes ["i"%byte]])].

(** A staged tree that already holds an encryption manifest. *)
Definition stale_manifest_stage : World :=
  quiet_world
    [("/stage/META-INF/encryption.xml", plain_file [ReadBytes (QString.toUtf8 "stale")])].

(** A book whose folder holds a font to obfuscate and an encryption
    manifest from before, and the world it is exported in. *)
Definition stale_manifest_book : SampleBook :=
  mkSampleBook [mkFontResource "http://www.idpf.org/2008/embedding" "Fonts/a.otf"]
               "urn:uuid:ABCDEF" "publication-id" "/book".

Definition stale_manifest_world : World :=
  quiet_world
    [("/book/Fonts/a.otf", plain_file [ReadBytes ["f"%byte]]);
     ("/book/META-INF/encryption.xml", plain_file [ReadBytes (QString.toUtf8 "stale")])].

(** ** Further notions *)

(** A read that hands over at least one byte and at most [BUFF_SIZE]. *)
Definition well_read (r : ReadResult) : Prop :=
  match r with
  | ReadBytes b => b <> [] /\ Z.of_nat (List.length b) <= BUFF_SIZE
  | ReadError => False
  end.

(** The file at [path] can be opened and is read without error, in
    chunks that fit the buffer. *)
Definition well_read_file (fs : Files) (path : string) : Prop :=
  exists n, lookup_file path fs = Some n /\ fn_openable n = true /\
            Forall well_read (fn_reads n).

(** The file at [path] can be opened. *)
Definition openable_file (fs : Files) (path : string) : Prop :=
  exists n, lookup_file path fs = Some n /\ fn_openable n = true.

(** The bytes of the file at [path]. *)
Definition content_at (fs : Files) (path : string) : list byte :=
  match lookup_file path fs with
  | Some n => delivered (fn_reads n)
  | None => []
  end.

(** The entry [e] is the archived form of the directory entry [it]: it
    has the header line 153 gives it, the file could be opened, and when
    the file read well the entry holds its bytes. *)
Definition archived_as (root : string) (fs : Files)
                       (it : string * FileNode) (e : ZipEntry) : Prop :=
  ze_header e = file_header (relpath_of root (fst it)) /\
  openable_file fs (fst it) /\
  (well_read_file fs (fst it) -> ze_data e = content_at fs (fst it)).

(** The exception the writer throws when archiving [it] fails. *)
Definition failure_at (root : string) (fs : Files)
                      (it : string * FileNode) (ex : Exception) : Prop :=
  ex = CannotStoreFile_at (relpath_of root (fst it)) \/
  (ex = CannotOpenFile_at (fileName (fst it)) /\ ~ openable_file fs (fst it)).

(** No failure is in store for the minizip calls. *)
Definition calm (w : World) : Prop := w_zip_rcs w = [].

(** The calls the archive writer makes: those of minizip, and the
    opening, reading and closing of files. *)
Definition archive_call (ev : Event) : bool :=
  match ev with
  | Ev_QFile_copy _ _ _ | Ev_ObfuscateFile _ _ _ => false
  | _ => true
  end.

Definition archive (ev : Event) : Prop := archive_call ev = true.

(** The calls of the archive writer other than the opening of a file:
    those of minizip, and the reading and closing of an open file. *)
Definition transfer_call (ev : Event) : bool :=
  match ev with
  | Ev_QFile_open _ _ | Ev_QFile_copy _ _ _ | Ev_ObfuscateFile _ _ _ => false
  | _ => true
  end.

Definition transfer (ev : Event) : Prop := transfer_call ev = true.



(** The step [c] logs only calls that satisfy [P]. *)
Definition only_logs {A} (P : Event -> Prop) (c : M A) : Prop :=
  forall w r w',
    c w = (r, w') ->
    exists added, w_trace w' = (added ++ w_trace w)%list /\ Forall P added.

(** The font resource carries an obfuscation algorithm. *)
Definition tagged (font_resource : FontResource) : bool :=
  negb (QString.isEmpty (GetObfuscationAlgorithm font_resource)).

(** ** Further scenarios *)

(** A world in which an archive is open with the entry of a.txt under
    way. *)
Definition entry_under_way : World :=
  set_zip (Some (mkZipFile "/out.epub" [] (Some (mkZipEntry (file_header "a.txt") [])) false))
          empty_stage.

(** The two-file staged directory, when the data of the second file
    cannot be written to the archive: the ninth minizip call fails. *)
Definition failing_second_file : World :=
  set_zip_rcs [0; 0; 0; 0; 0; 0; 0; 0; -1] two_files_stage.

(** The two-file staged directory, when the archive cannot be created. *)
Definition unwritable_destination : World :=
  set_zip_rcs [-1] two_files_stage.

(** The empty staged directory, when the memory of the freed byte array
    has been used again by the time it is read. *)
Definition reused_memory : World :=
  set_freed (QString.toUtf8 "junk" ++ [x00])%list empty_stage.

(** The empty staged directory, when the close of the mimetype entry and
    the close of the archive fail: the fourth and fifth minizip calls. *)
Definition failing_closes : World :=
  set_zip_rcs [0; 0; 0; -1; -1] empty_stage.

(** A book whose only font carries no obfuscation algorithm. *)
Definition untagged_font_book : SampleBook :=
  mkSampleBook [mkFontResource EmptyString "Fonts/a.otf"]
               "urn:uuid:ABCDEF" "publication-id" "/book".

(** A staged tree with its META-INF folder, holding container.xml. *)
Definition staged_container : World :=
  quiet_world
    [("/stage/META-INF/container.xml",
      plain_file [ReadBytes (QString.toUtf8 "<container/>")])].

(** The same staged tree, on a system that refuses to create the copy
    of a file. *)
Definition refusing_system : World := set_copy_refused true staged_container.

(** A world in which no temporary file can be opened. *)
Definition no_temporary_file : World :=
  mkWorld [] [] O (Some "No space left on device") [] None [] true [].

(** The name the next [QTemporaryFile] of a world gets. *)
Definition next_temporary_file (w : World) : string :=
  temp_name "/tmp/qt_temp." (w_next_temp w).

(** Where [CreateEncryptionXML] puts the manifest. *)
Definition manifest_path (fullfolderpath : string) : string :=
  fullfolderpath ++ "/" ++ ENCRYPTION_XML_FILE_NAME.

(** Collaborators like those of [SampleBookModel], except that the copy
    of the book's folder fails. *)
Definition failing_copy_model : BookModel SampleBook := {|
  HasObfuscatedFonts := @HasObfuscatedFonts SampleBook SampleBookModel;
  EnsureUUIDIdentifierPresent := @EnsureUUIDIdentifierPresent SampleBook SampleBookModel;
  AddSigilVersionMeta b := b;
  SaveAllResourcesToDisk b fs := (None, fs);
  GetFullPathToMainFolder := sb_main_folder;
  GetUUIDIdentifierValue := sb_uuid;
  GetPublicationIdentifier := sb_publication_id;
  GetFontResources := sb_fonts;
  EncryptionXmlWriter_WriteXML b := QString.toUtf8 "<encryption/>";
  Utility_CopyFiles from to fs := (Some (CannotOpenFile_at to), fs);
  FontObfuscation_ObfuscateFile := sample_obfuscate;
  ADOBE_FONT_ALGO_ID := "http://ns.adobe.com/pdf/enc#RC"
|}.

(* ================================================================== *)
(** * Part II. Lemmas and theorems *)
(* ================================================================== *)

(** ** Steps of the monad *)

Lemma bind_inv {A B} (c : M A) (k : A -> M B) w r w' :
  bind c k w = (r, w') ->
  (exists a w1, c w = (Ok a, w1) /\ k a w1 = (r, w')) \/
  (exists e, c w = (Throw e, w') /\ r = Throw e).
Proof.
  unfold bind. destruct (c w) as [[a | e] w1]; intros H.
  - left. now exists a, w1.
  - right. exists e. now inversion H.
Qed.

Lemma ret_inv {A} (a : A) w r w' : ret a w = (r, w') -> r = Ok a /\ w' = w.
Proof. unfold ret. intros H. now inversion H. Qed.

Lemma boost_throw_inv {A} (e : Exception) w (r : Result A) w' :
  boost_throw e w = (r, w') -> r = Throw e /\ w' = w.
Proof. unfold boost_throw. intros H. now inversion H. Qed.

(** Splits a run [H : (x <- c ;; k) w = (r, w')] into the run of [c] and
    the run of the rest. *)
Ltac run_bind H a w1 E :=
  apply bind_inv in H;
  destruct H as [(a & w1 & E & H) | (? & E & ?)].

(** ** What the library calls do to the archive and to the files *)

Section LibraryCalls.

Lemma next_rc_frame w :
  w_zip (snd (next_rc w)) = w_zip w /\ w_files (snd (next_rc w)) = w_files w.
Proof. unfold next_rc. now destruct (w_zip_rcs w). Qed.

Lemma zipOpen64_inv path w r w' :
  zipOpen64 path w = (r, w') ->
  w_files w' = w_files w /\
  ((r = Ok true /\ w_zip w' = Some (mkZipFile path [] None false)) \/
   (r = Ok false /\ w_zip w' = None)).
Proof.
  unfold zipOpen64. destruct (next_rc_frame w) as [_ Hf].
  destruct (next_rc w) as [rc w1]. simpl in Hf.
  destruct (rc =? Z_OK); intros H; inversion H; subst; simpl; auto.
Qed.

Lemma zipOpenNewFileInZip4_64_inv name sl sg me le ra wb ml st vm fb z64 w r w' zf :
  w_zip w = Some zf ->
  zipOpenNewFileInZip4_64 name sl sg me le ra wb ml st vm fb z64 w = (r, w') ->
  w_files w' = w_files w /\
  exists rc, r = Ok rc /\
    (((rc =? Z_OK) = true /\
      w_zip w' = Some (open_entry (mkEntryHeader name sl sg me le ra wb ml st vm fb z64) zf)) \/
     ((rc =? Z_OK) = false /\ w_zip w' = Some zf)).
Proof.
  unfold zipOpenNewFileInZip4_64. intros Hz.
  destruct (next_rc_frame w) as [Hz1 Hf].
  destruct (next_rc w) as [rc w1]. simpl in Hz1, Hf. rewrite Hz1, Hz.
  destruct (rc =? Z_OK) eqn:Hrc; intros H; inversion H; subst; simpl;
    (split; [assumption | exists rc; split; [reflexivity | ]]);
    intuition congruence.
Qed.

Lemma zipWriteInFileInZip_inv buf len w r w' p d e c :
  w_zip w = Some (mkZipFile p d (Some e) c) ->
  zipWriteInFileInZip buf len w = (r, w') ->
  w_files w' = w_files w /\
  exists rc, r = Ok rc /\
    (((rc =? Z_OK) = true /\
      w_zip w' = Some (mkZipFile p d (Some (append_data (take len buf) e)) c)) \/
     ((rc =? Z_OK) = false /\ w_zip w' = Some (mkZipFile p d (Some e) c))).
Proof.
  unfold zipWriteInFileInZip. intros Hz.
  destruct (next_rc_frame w) as [Hz1 Hf].
  destruct (next_rc w) as [rc w1]. simpl in Hz1, Hf. rewrite Hz1, Hz.
  destruct (rc =? Z_OK) eqn:Hrc; intros H; inversion H; subst; simpl;
    (split; [assumption | exists rc; split; [reflexivity | ]]);
    intuition congruence.
Qed.

Lemma zipCloseFileInZip_inv w r w' p d e c :
  w_zip w = Some (mkZipFile p d (Some e) c) ->
  zipCloseFileInZip w = (r, w') ->
  w_files w' = w_files w /\
  exists rc, r = Ok rc /\ w_zip w' = Some (mkZipFile p (d ++ [e]) None c).
Proof.
  unfold zipCloseFileInZip. intros Hz.
  destruct (next_rc_frame w) as [Hz1 Hf].
  destruct (next_rc w) as [rc w1]. simpl in Hz1, Hf. rewrite Hz1, Hz.
  intros H; inversion H; subst; simpl. split; [assumption | now exists rc].
Qed.

Lemma zipClose_inv w r w' zf :
  w_zip w = Some zf ->
  zipClose w = (r, w') ->
  w_files w' = w_files w /\
  exists rc, r = Ok rc /\
    w_zip w' = Some (mkZipFile (zf_path zf) (zip_entries zf) None true).
Proof.
  unfold zipClose. intros Hz.
  destruct (next_rc_frame w) as [Hz1 Hf].
  destruct (next_rc w) as [rc w1]. simpl in Hz1, Hf. rewrite Hz1, Hz.
  intros H; inversion H; subst; simpl. split; [assumption | now exists rc].
Qed.

Lemma constData_of_temporary_inv bytes w r w' :
  constData_of_temporary bytes w = (r, w') -> r = Ok (w_freed w) /\ w' = w.
Proof. unfold constData_of_temporary. intros H. now inversion H. Qed.

(** Opening the archive and an entry leaves the freed memory alone. *)
Lemma next_rc_freed w : w_freed (snd (next_rc w)) = w_freed w.
Proof. unfold next_rc. now destruct (w_zip_rcs w). Qed.

Lemma zipOpen64_freed path w r w' :
  zipOpen64 path w = (r, w') -> w_freed w' = w_freed w.
Proof.
  unfold zipOpen64. pose proof (next_rc_freed w) as Hm.
  destruct (next_rc w) as [rc w1]. cbn [snd] in Hm.
  destruct (rc =? Z_OK); intros H; injection H as _ <-; exact Hm.
Qed.

Lemma zipOpenNewFileInZip4_64_freed name sl sg me le ra wb ml st vm fb z64 w r w' :
  zipOpenNewFileInZip4_64 name sl sg me le ra wb ml st vm fb z64 w = (r, w') ->
  w_freed w' = w_freed w.
Proof.
  unfold zipOpenNewFileInZip4_64. pose proof (next_rc_freed w) as Hm.
  destruct (next_rc w) as [rc w1]. cbn [snd] in Hm.
  destruct (w_zip w1); [destruct (rc =? Z_OK) | ]; intros H; injection H as _ <-;
    exact Hm.
Qed.

Lemma QFile_open_inv path w r w' :
  QFile_open path w = (r, w') ->
  w_files w' = w_files w /\ w_zip w' = w_zip w /\ exists o, r = Ok o.
Proof.
  unfold QFile_open.
  destruct (lookup_file path (w_files w)) as [n | ]; [destruct (fn_openable n) | ];
    intros H; inversion H; subst; simpl; eauto.
Qed.

Lemma QFile_read_inv rr buff maxSize w r w' :
  QFile_read rr buff maxSize w = (r, w') ->
  w_files w' = w_files w /\ w_zip w' = w_zip w /\ exists nb, r = Ok nb.
Proof.
  unfold QFile_read. destruct rr; intros H; inversion H; subst; simpl; eauto.
Qed.

Lemma QFile_read_at_end_inv w r w' :
  QFile_read_at_end w = (r, w') ->
  w_files w' = w_files w /\ w_zip w' = w_zip w /\ r = Ok 0.
Proof. unfold QFile_read_at_end. intros H; inversion H; subst; simpl; auto. Qed.

Lemma QFile_close_inv w r w' :
  QFile_close w = (r, w') ->
  w_files w' = w_files w /\ w_zip w' = w_zip w /\ r = Ok tt.
Proof. unfold QFile_close. intros H; inversion H; subst; simpl; auto. Qed.

Lemma QFile_copy_inv fileName newName w r w' :
  QFile_copy fileName newName w = (r, w') ->
  exists copied,
    r = Ok copied /\
    w_trace w' = Ev_QFile_copy fileName newName copied :: w_trace w /\
    if copied
    then exists n, lookup_file fileName (w_files w) = Some n /\
                   lookup_file newName (w_files w) = None /\
                   folder_exists (folder_of newName) (w_files w) = true /\
                   w_files w' = (w_files w ++ [(newName, n)])%list
    else w_files w' = w_files w.
Proof.
  unfold QFile_copy.
  destruct (lookup_file fileName (w_files w)) as [n | ] eqn:Hsrc;
    [destruct (lookup_file newName (w_files w)) eqn:Hdst;
     [ | destruct (folder_exists (folder_of newName) (w_files w)) eqn:Hdir;
         [destruct (w_copy_refused w) | ]] | ];
    cbn [andb negb]; intros H; injection H as <- <-;
    try (exists false; repeat split; reflexivity).
  exists true. split; [reflexivity | ]. split; [reflexivity | ].
  exists n. repeat split; reflexivity.
Qed.

End LibraryCalls.

(** ** Unsigned arithmetic of the copy loop *)

Lemma to_uint32_nonneg z : 0 <= to_uint32 z.
Proof. unfold to_uint32. apply Z.mod_pos_bound. reflexivity. Qed.

(** The test [read < 0] of line 179 never holds. *)
Lemma read_never_negative z : (to_uint32 z <? 0) = false.
Proof. apply Z.ltb_ge. apply to_uint32_nonneg. Qed.

(** ** The archive writer, entry by entry *)

Section ArchiveWriter.

Variable fullfolderpath : string.

(** The copy loop leaves the entry open and [read] at 0, or fails with
    the entry and the archive closed. *)
Lemma write_file_data_inv relpath reads :
  forall buff w r w' p d e c,
    w_zip w = Some (mkZipFile p d (Some e) c) ->
    write_file_data relpath reads buff w = (r, w') ->
    w_files w' = w_files w /\
    match r with
    | Ok read =>
        read = 0 /\
        exists e', ze_header e' = ze_header e /\
                   w_zip w' = Some (mkZipFile p d (Some e') c)
    | Throw ex =>
        ex = CannotStoreFile_at relpath /\
        exists e', ze_header e' = ze_header e /\
                   w_zip w' = Some (mkZipFile p (d ++ [e']) None true)
    end.
Proof.
  induction reads as [ | rr reads' IH]; intros buff w r w' p d e c Hz H;
    cbn [write_file_data] in H.
  - run_bind H n w1 E;
      apply QFile_read_at_end_inv in E as (Hf & Hz1 & Hr); [ | discriminate].
    injection Hr as ->. apply ret_inv in H as [-> ->].
    split; [assumption | ]. split; [reflexivity | ].
    exists e. split; [reflexivity | congruence].
  - run_bind H nb w1 E;
      apply QFile_read_inv in E as (Hf & Hz1 & nb' & Hr); [ | discriminate].
    clear Hr nb'. rewrite Hz in Hz1.
    destruct (to_uint32 (fst nb) >? 0) eqn:Hpos.
    + run_bind H rc w2 E2;
        apply (zipWriteInFileInZip_inv _ _ _ _ _ _ _ _ _ Hz1) in E2
          as (Hf2 & rc' & Hr & Hcase); [ | discriminate].
      injection Hr as <-.
      destruct Hcase as [[Hrc Hz2] | [Hrc Hz2]]; rewrite Hrc in H; cbn [negb] in H.
      * apply (IH _ _ _ _ _ _ _ _ Hz2) in H as [Hf3 H].
        split; [congruence | ].
        destruct r as [read | ex]; destruct H as (H1 & e' & He' & Hz3);
          (split; [assumption | exists e'; split; [exact He' | exact Hz3]]).
      * run_bind H u1 w3 E3;
          apply QFile_close_inv in E3 as (Hf3 & Hz3 & Hr3); [ | discriminate].
        rewrite Hz2 in Hz3.
        run_bind H u2 w4 E4;
          apply (zipCloseFileInZip_inv _ _ _ _ _ _ _ Hz3) in E4
            as (Hf4 & rc4 & Hr4 & Hz4); [ | discriminate].
        run_bind H u3 w5 E5;
          apply (zipClose_inv _ _ _ _ Hz4) in E5
            as (Hf5 & rc5 & Hr5 & Hz5); [ | discriminate].
        apply boost_throw_inv in H as [-> ->].
        split; [congruence | ]. split; [reflexivity | ].
        exists e. split; [reflexivity | ].
        rewrite Hz5. unfold zip_entries. cbn. now rewrite app_nil_r.
    + apply ret_inv in H as [-> ->].
      split; [assumption | ]. split.
      * pose proof (to_uint32_nonneg (fst nb)). rewrite Z.gtb_ltb in Hpos.
        apply Z.ltb_ge in Hpos. lia.
      * exists e. split; [reflexivity | assumption].
Qed.

(** One turn of the loop over the directory: on success one closed
    entry more, with the header of line 153; on failure the archive is
    closed and holds at most that entry more. *)
Lemma add_file_entry_inv it :
  forall w r w' p d c,
    w_zip w = Some (mkZipFile p d None c) ->
    add_file_entry fullfolderpath it w = (r, w') ->
    w_files w' = w_files w /\
    match r with
    | Ok _ =>
        exists data,
          w_zip w' =
          Some (mkZipFile p
                  (d ++ [mkZipEntry (file_header (relpath_of fullfolderpath (fst it))) data])
                  None c)
    | Throw ex =>
        (ex = CannotStoreFile_at (relpath_of fullfolderpath (fst it)) \/
         ex = CannotOpenFile_at (fileName (fst it))) /\
        exists added,
          w_zip w' = Some (mkZipFile p (d ++ added) None true) /\
          Forall (fun e => ze_header e = file_header (relpath_of fullfolderpath (fst it)))
                 added
    end.
Proof.
  intros w r w' p d c Hz H. unfold add_file_entry in H. cbv zeta in H.
  set (relpath := relpath_of fullfolderpath (fst it)) in *.
  run_bind H rc w1 E;
    apply (zipOpenNewFileInZip4_64_inv _ _ _ _ _ _ _ _ _ _ _ _ _ _ _ _ Hz) in E
      as (Hf1 & rc' & Hr & Hcase); [ | discriminate].
  injection Hr as <-. fold (file_header relpath) in Hcase.
  unfold open_entry, zip_entries in Hcase. cbn in Hcase. rewrite app_nil_r in Hcase.
  destruct Hcase as [[Hrc Hz1] | [Hrc Hz1]]; rewrite Hrc in H; cbn [negb] in H.
  - (* the entry is open *)
    run_bind H dfile w2 E2;
      apply QFile_open_inv in E2 as (Hf2 & Hz2 & o & Hr2); [ | discriminate].
    clear Hr2 o. rewrite Hz1 in Hz2.
    destruct dfile as [reads | ].
    + apply bind_inv in H.
      destruct H as [(read & w3 & E3 & H) | (ex & E3 & ->)];
        apply (write_file_data_inv _ _ _ _ _ _ _ _ _ _ Hz2) in E3 as [Hf3 E3].
      * destruct E3 as (-> & e' & He' & Hz3). cbn in He'.
        run_bind H u w4 E4;
          apply QFile_close_inv in E4 as (Hf4 & Hz4 & Hr4); [ | discriminate].
        rewrite Hz3 in Hz4. cbn [Z.ltb Z.compare] in H.
        run_bind H rc5 w5 E5;
          apply (zipCloseFileInZip_inv _ _ _ _ _ _ _ Hz4) in E5
            as (Hf5 & rc5' & Hr5 & Hz5); [ | discriminate].
        destruct (rc5 =? Z_OK); cbn [negb] in H.
        -- apply ret_inv in H as [-> ->]. split; [congruence | ].
           exists (ze_data e'). rewrite Hz5. destruct e' as [h' data']. cbn in *.
           now subst h'.
        -- run_bind H u6 w6 E6;
             apply (zipClose_inv _ _ _ _ Hz5) in E6
               as (Hf6 & rc6 & Hr6 & Hz6); [ | discriminate].
           apply boost_throw_inv in H as [-> ->].
           split; [congruence | ]. split; [now left | ].
           exists [e']. rewrite Hz6. unfold zip_entries. cbn. rewrite app_nil_r.
           split; [reflexivity | ]. now constructor.
      * destruct E3 as (-> & e' & He' & Hz3). cbn in He'.
        split; [assumption || congruence | ]. split; [now left | ].
        exists [e']. split; [exact Hz3 | now constructor].
    + run_bind H u3 w3 E3;
        apply (zipCloseFileInZip_inv _ _ _ _ _ _ _ Hz2) in E3
          as (Hf3 & rc3 & Hr3 & Hz3); [ | discriminate].
      run_bind H u4 w4 E4;
        apply (zipClose_inv _ _ _ _ Hz3) in E4
          as (Hf4 & rc4 & Hr4 & Hz4); [ | discriminate].
      apply boost_throw_inv in H as [-> ->].
      split; [congruence | ]. split; [now right | ].
      exists [mkZipEntry (file_header relpath) []].
      rewrite Hz4. unfold zip_entries. cbn. rewrite app_nil_r.
      split; [reflexivity | ]. now constructor.
  - (* the entry could not be opened *)
    run_bind H u1 w2 E2;
      apply (zipClose_inv _ _ _ _ Hz1) in E2
        as (Hf2 & rc2 & Hr2 & Hz2); [ | discriminate].
    apply boost_throw_inv in H as [-> ->].
    split; [congruence | ]. split; [now left | ].
    exists []. rewrite Hz2. unfold zip_entries. cbn.
    split; [reflexivity | constructor].
Qed.

Lemma add_file_entries_inv entries :
  forall w r w' p d c,
    w_zip w = Some (mkZipFile p d None c) ->
    add_file_entries fullfolderpath entries w = (r, w') ->
    w_files w' = w_files w /\
    exists added c',
      w_zip w' = Some (mkZipFile p (d ++ added) None c') /\
      Forall (fun e => exists relpath, ze_header e = file_header relpath) added /\
      match r with
      | Ok _ =>
          c' = c /\
          map ze_header added =
          map (fun it => file_header (relpath_of fullfolderpath (fst it))) entries
      | Throw ex =>
          c' = true /\
          exists it, In it entries /\
            (ex = CannotStoreFile_at (relpath_of fullfolderpath (fst it)) \/
             ex = CannotOpenFile_at (fileName (fst it)))
      end.
Proof.
  induction entries as [ | it entries' IH]; intros w r w' p d c Hz H;
    cbn [add_file_entries] in H.
  - apply ret_inv in H as [-> ->]. split; [reflexivity | ].
    exists [], c. rewrite app_nil_r. repeat split; auto.
  - apply bind_inv in H.
    destruct H as [(u & w1 & E & H) | (ex & E & ->)];
      apply (add_file_entry_inv _ _ _ _ _ _ _ Hz) in E as [Hf1 E].
    + destruct E as [data Hz1].
      apply (IH _ _ _ _ _ _ Hz1) in H as (Hf2 & added & c' & Hz2 & Hall & Hr).
      split; [congruence | ].
      exists (mkZipEntry (file_header (relpath_of fullfolderpath (fst it))) data :: added), c'.
      split; [rewrite Hz2, <- app_assoc; reflexivity | ].
      split; [constructor; [eexists; reflexivity | exact Hall] | ].
      destruct r as [ [] | ex].
      * destruct Hr as [-> Hmap]. split; [reflexivity | ]. cbn. now rewrite Hmap.
      * destruct Hr as (-> & it' & Hin & Hex). split; [reflexivity | ].
        exists it'. split; [now right | exact Hex].
    + destruct E as (Hex & added & Hz1 & Hall).
      split; [exact Hf1 | ]. exists added, true.
      split; [exact Hz1 | ]. split.
      * eapply Forall_impl; [ | exact Hall]. intros e He. eexists. exact He.
      * split; [reflexivity | ]. exists it. split; [now left | exact Hex].
Qed.

End ArchiveWriter.

(** Normal form of the entries of an archive without open entry. *)
Ltac zip_norm :=
  unfold zip_entries;
  cbn [archive_entries zip_entries zf_path zf_done zf_cur zf_closed option_list app];
  rewrite ?app_nil_r.

(** What a run of the archive writer leaves behind: the files untouched;
    an archive that is empty or starts with the entry line 130 opened,
    followed by entries opened as line 153 opens them; and, when the
    writer returns, a closed archive with that first entry, holding the C
    string line 135 found at [mime_data], and one entry for each
    directory entry visited, in the order of the visit. *)
Lemma SaveFolderAsEpubToLocation_inv fullfolderpath fullfilepath w r w' :
  SaveFolderAsEpubToLocation fullfolderpath fullfilepath w = (r, w') ->
  w_files w' = w_files w /\
  (archive_entries (w_zip w') = [] \/
   exists data rest,
     archive_entries (w_zip w') = mkZipEntry mimetype_header data :: rest /\
     Forall (fun e => exists relpath, ze_header e = file_header relpath) rest) /\
  (forall u, r = Ok u ->
     exists rest,
       w_zip w' =
       Some (mkZipFile fullfilepath
               (mkZipEntry mimetype_header (c_string (w_freed w)) :: rest) None true) /\
       map ze_header rest =
       map (fun it => file_header (relpath_of fullfolderpath (fst it)))
           (visited fullfolderpath (w_files w))).
Proof.
  intros H. unfold SaveFolderAsEpubToLocation in H.
  run_bind H zfile w1 E1;
    pose proof E1 as E1m;
    apply zipOpen64_inv in E1 as (Hf1 & Hcase); [ | destruct Hcase as [[? _] | [? _]]; discriminate].
  destruct Hcase as [[Hr Hz1] | [Hr Hz1]]; injection Hr as ->; cbn [negb] in H.
  2:{ apply boost_throw_inv in H as [-> ->]. rewrite Hz1.
      split; [assumption | ]. split; [now left | discriminate]. }
  unfold zipOpenNewFileInZip64 in H.
  run_bind H rc w2 E2;
    pose proof E2 as E2m;
    apply (zipOpenNewFileInZip4_64_inv _ _ _ _ _ _ _ _ _ _ _ _ _ _ _ _ Hz1) in E2
      as (Hf2 & rc' & Hr & Hcase); [ | discriminate].
  injection Hr as <-. fold mimetype_header in Hcase.
  unfold open_entry, zip_entries in Hcase. cbn [zf_path zf_done zf_cur zf_closed option_list app] in Hcase.
  destruct Hcase as [[Hrc Hz2] | [Hrc Hz2]]; rewrite Hrc in H; cbn [negb] in H.
  2:{ run_bind H u w3 E3;
        apply (zipClose_inv _ _ _ _ Hz2) in E3 as (Hf3 & rc3 & Hr3 & Hz3); [ | discriminate].
      apply boost_throw_inv in H as [-> ->]. rewrite Hz3.
      split; [congruence | ]. split; [now left | discriminate]. }
  assert (Hm2 : w_freed w2 = w_freed w)
    by (rewrite (zipOpenNewFileInZip4_64_freed _ _ _ _ _ _ _ _ _ _ _ _ _ _ _ E2m);
        exact (zipOpen64_freed _ _ _ _ E1m)).
  run_bind H mime_data wm Em;
    apply constData_of_temporary_inv in Em as [Hr ->]; [ | discriminate].
  injection Hr as ->. rewrite Hm2 in H.
  run_bind H rc3 w3 E3;
    apply (zipWriteInFileInZip_inv _ _ _ _ _ _ _ _ _ Hz2) in E3
      as (Hf3 & rc3' & Hr & Hcase); [ | discriminate].
  injection Hr as <-. fold (c_string (w_freed w)) in Hcase.
  unfold append_data in Hcase. cbn [ze_header ze_data app] in Hcase.
  destruct Hcase as [[Hrc3 Hz3] | [Hrc3 Hz3]]; rewrite Hrc3 in H; cbn [negb] in H.
  2:{ run_bind H u w4 E4;
        apply (zipCloseFileInZip_inv _ _ _ _ _ _ _ Hz3) in E4
          as (Hf4 & rc4 & Hr4 & Hz4); [ | discriminate].
      run_bind H u5 w5 E5;
        apply (zipClose_inv _ _ _ _ Hz4) in E5 as (Hf5 & rc5 & Hr5 & Hz5); [ | discriminate].
      apply boost_throw_inv in H as [-> ->]. rewrite Hz5. zip_norm.
      split; [congruence | ]. split; [ | discriminate].
      right. exists [], []. split; [reflexivity | constructor]. }
  run_bind H u w4 E4;
    apply (zipCloseFileInZip_inv _ _ _ _ _ _ _ Hz3) in E4
      as (Hf4 & rc4 & Hr4 & Hz4); [ | discriminate].
  cbn [app] in Hz4.
  run_bind H entries w5 E5; [ | discriminate].
  unfold QDirIterator in E5. injection E5 as <- <-.
  fold (visited fullfolderpath (w_files w4)) in H.
  assert (Hvis : w_files w4 = w_files w) by congruence. rewrite Hvis in H.
  apply bind_inv in H.
  destruct H as [(u6 & w6 & E6 & H) | (ex & E6 & ->)];
    apply (add_file_entries_inv _ _ _ _ _ _ _ _ Hz4) in E6
      as (Hf6 & added & c' & Hz6 & Hall & Hr6).
  - destruct Hr6 as [-> Hmap].
    run_bind H u7 w7 E7;
      apply (zipClose_inv _ _ _ _ Hz6) in E7 as (Hf7 & rc7 & Hr7 & Hz7); [ | discriminate].
    apply ret_inv in H as [-> ->]. rewrite Hz7.
    zip_norm.
    split; [congruence | ]. split.
    + right. exists (c_string (w_freed w)), added. split; [reflexivity | exact Hall].
    + intros _ _. exists added. split; [reflexivity | exact Hmap].
  - rewrite Hz6. zip_norm.
    split; [congruence | ]. split; [ | discriminate].
    right. exists (c_string (w_freed w)), added. split; [reflexivity | exact Hall].
Qed.

(** ** Paths: how line 146 to 149 compute [relpath] *)

Section Paths.

Lemma string_app_assoc (a b c : string) : (a ++ b) ++ c = a ++ b ++ c.
Proof. induction a as [ | x a IH]; cbn; [reflexivity | now rewrite IH]. Qed.



Lemma drop_app (a b : string) : drop (String.length a) (a ++ b) = b.
Proof. induction a as [ | x a IH]; cbn; [now destruct b | exact IH]. Qed.






(** The recursion of [strip_leading_slashes] is the loop of lines 147 to
    149. *)
Lemma strip_leading_slashes_loop relpath :
  strip_leading_slashes relpath
  = if QString.startsWith relpath "/"
    then strip_leading_slashes (QString.remove_first relpath)
    else relpath.
Proof.
  destruct relpath as [ | c rest]; [reflexivity | ].
  unfold QString.startsWith.
  cbn [strip_leading_slashes QString.remove_first String.prefix].
  destruct (ascii_dec "/" c) as [<- | Hne].
  - cbn [Ascii.eqb Bool.eqb]. now destruct rest.
  - destruct (Ascii.eqb_spec c "/") as [-> | _]; [now elim Hne | reflexivity].
Qed.


End Paths.

(** ** Bytes and buffers *)

Lemma take_app_exact (b c : list byte) :
  take (Z.of_nat (List.length b)) (b ++ c) = b.
Proof.
  induction b as [ | x b IH].
  - cbn. now destruct c.
  - cbn [List.length app take].
    replace (Z.of_nat (S (List.length b)) >? 0) with true
      by (symmetry; apply Z.gtb_lt; lia).
    replace (Z.of_nat (S (List.length b)) - 1) with (Z.of_nat (List.length b)) by lia.
    now rewrite IH.
Qed.

Lemma take_all (b : list byte) :
  forall len, Z.of_nat (List.length b) <= len -> take len b = b.
Proof.
  induction b as [ | x b IH]; intros len Hlen; [reflexivity | ].
  cbn [List.length] in Hlen. cbn [take].
  replace (len >? 0) with true by (symmetry; apply Z.gtb_lt; lia).
  rewrite IH by lia. reflexivity.
Qed.

Lemma to_uint32_small z : 0 <= z < 2 ^ 32 -> to_uint32 z = z.
Proof. intros H. unfold to_uint32. now apply Z.mod_small. Qed.

(** A read that fits the buffer is passed on to the entry as it is. *)
Lemma well_read_passed_on b buff :
  well_read (ReadBytes b) ->
  let got := take BUFF_SIZE b in
  let read := to_uint32 (Z.of_nat (List.length got)) in
  (read >? 0) = true /\ take read (overwrite buff got) = b.
Proof.
  intros [Hne Hlen]. cbv zeta. rewrite (take_all b BUFF_SIZE Hlen).
  unfold BUFF_SIZE in Hlen.
  rewrite to_uint32_small by lia. split.
  - apply Z.gtb_lt. destruct b; [now elim Hne | cbn [List.length]; lia].
  - unfold overwrite. apply take_app_exact.
Qed.

(** ** The copy loop on files that read well *)

Lemma write_file_data_copies relpath reads :
  forall buff w read w' p d e c,
    Forall well_read reads ->
    w_zip w = Some (mkZipFile p d (Some e) c) ->
    write_file_data relpath reads buff w = (Ok read, w') ->
    w_zip w' =
    Some (mkZipFile p d (Some (mkZipEntry (ze_header e) (ze_data e ++ delivered reads))) c).
Proof.
  induction reads as [ | rr reads' IH]; intros buff w read w' p d e c Hwell Hz H;
    cbn [write_file_data] in H.
  - run_bind H n w1 E;
      apply QFile_read_at_end_inv in E as (Hf & Hz1 & Hr); [ | discriminate].
    apply ret_inv in H as [_ ->]. rewrite Hz1, Hz. cbn [delivered].
    rewrite app_nil_r. now destruct e.
  - inversion Hwell as [ | ? ? Hrr Hrest]; subst.
    destruct rr as [b | ]; [ | contradiction].
    run_bind H nb w1 E; [ | unfold QFile_read in E; discriminate].
    unfold QFile_read in E. injection E as <- <-. cbn [fst snd] in H. cbv zeta in H.
    destruct (well_read_passed_on b buff Hrr) as [Hpos Hgot]. cbv zeta in Hpos, Hgot.
    rewrite Hpos in H.
    assert (Hz1 : w_zip (log (Ev_QFile_read (Z.of_nat (List.length (take BUFF_SIZE b)))) w)
                  = Some (mkZipFile p d (Some e) c)) by exact Hz.
    run_bind H rc w2 E2;
      apply (zipWriteInFileInZip_inv _ _ _ _ _ _ _ _ _ Hz1) in E2
        as (Hf2 & rc' & Hr & Hcase); [ | discriminate].
    injection Hr as <-.
    destruct Hcase as [[Hrc Hz2] | [Hrc Hz2]]; rewrite Hrc in H; cbn [negb] in H.
    + rewrite Hgot in Hz2. apply (IH _ _ _ _ _ _ _ _ Hrest Hz2) in H. rewrite H.
      unfold append_data. cbn [ze_header ze_data delivered].
      now rewrite app_assoc.
    + run_bind H u1 w3 E3; [ | discriminate].
      run_bind H u2 w4 E4; [ | discriminate].
      run_bind H u3 w5 E5; [ | discriminate].
      apply boost_throw_inv in H as [H _]. discriminate H.
Qed.


(** ** One turn of the directory loop, in full *)

Lemma QFile_open_found path w reads w' :
  QFile_open path w = (Ok (Some reads), w') ->
  exists n, lookup_file path (w_files w) = Some n /\ fn_openable n = true /\
            reads = fn_reads n.
Proof.
  unfold QFile_open.
  destruct (lookup_file path (w_files w)) as [n | ]; [ | discriminate].
  destruct (fn_openable n) eqn:Hopen; [ | discriminate].
  intros H. injection H as <- _. now exists n.
Qed.

Lemma QFile_open_failed path w w' :
  QFile_open path w = (Ok None, w') -> ~ openable_file (w_files w) path.
Proof.
  unfold QFile_open, openable_file. intros H (n & Hl & Ho). rewrite Hl, Ho in H.
  discriminate H.
Qed.

Section ArchiveWriterOutcome.

Variable fullfolderpath : string.

(** On success the turn adds one closed entry, for a file that could be
    opened, holding what the file delivered when it read well.  On
    failure the archive is closed and holds at most that one entry more;
    [CannotOpenFile] is thrown only for a file that cannot be opened. *)
Lemma add_file_entry_outcome it :
  forall w r w' p d c,
    w_zip w = Some (mkZipFile p d None c) ->
    add_file_entry fullfolderpath it w = (r, w') ->
    let h := file_header (relpath_of fullfolderpath (fst it)) in
    match r with
    | Ok _ =>
        exists n data,
          lookup_file (fst it) (w_files w) = Some n /\ fn_openable n = true /\
          w_zip w' = Some (mkZipFile p (d ++ [mkZipEntry h data]) None c) /\
          (Forall well_read (fn_reads n) -> data = delivered (fn_reads n))
    | Throw ex =>
        exists added,
          w_zip w' = Some (mkZipFile p (d ++ added) None true) /\
          (added = [] \/ exists data, added = [mkZipEntry h data]) /\
          (ex = CannotStoreFile_at (relpath_of fullfolderpath (fst it)) \/
           ex = CannotOpenFile_at (fileName (fst it)) /\
           ~ openable_file (w_files w) (fst it))
    end.
Proof.
  intros w r w' p d c Hz H. cbv zeta. unfold add_file_entry in H. cbv zeta in H.
  set (relpath := relpath_of fullfolderpath (fst it)) in *.
  run_bind H rc w1 E;
    apply (zipOpenNewFileInZip4_64_inv _ _ _ _ _ _ _ _ _ _ _ _ _ _ _ _ Hz) in E
      as (Hf1 & rc' & Hr & Hcase); [ | discriminate].
  injection Hr as <-. fold (file_header relpath) in Hcase.
  unfold open_entry, zip_entries in Hcase. cbn in Hcase. rewrite app_nil_r in Hcase.
  destruct Hcase as [[Hrc Hz1] | [Hrc Hz1]]; rewrite Hrc in H; cbn [negb] in H.
  - run_bind H dfile w2 E2; [ | apply QFile_open_inv in E2 as (_ & _ & o & Hr2); discriminate].
    pose proof (QFile_open_inv _ _ _ _ E2) as (Hf2 & Hz2 & _). rewrite Hz1 in Hz2.
    destruct dfile as [reads | ].
    + apply QFile_open_found in E2 as (n & Hlook & Hopen & ->). rewrite Hf1 in Hlook.
      apply bind_inv in H.
      destruct H as [(read & w3 & E3 & H) | (ex & E3 & ->)].
      * pose proof (write_file_data_inv _ _ _ _ _ _ _ _ _ _ Hz2 E3)
          as (Hf3 & -> & e' & He' & Hz3).
        cbn in He'.
        run_bind H u w4 E4;
          apply QFile_close_inv in E4 as (Hf4 & Hz4 & Hr4); [ | discriminate].
        rewrite Hz3 in Hz4. cbn [Z.ltb Z.compare] in H.
        run_bind H rc5 w5 E5;
          apply (zipCloseFileInZip_inv _ _ _ _ _ _ _ Hz4) in E5
            as (Hf5 & rc5' & Hr5 & Hz5); [ | discriminate].
        assert (Hdata : Forall well_read (fn_reads n) -> ze_data e' = delivered (fn_reads n)).
        { intros Hwell.
          pose proof (write_file_data_copies _ _ _ _ _ _ _ _ _ _ Hwell Hz2 E3) as Hz3'.
          rewrite Hz3 in Hz3'. injection Hz3' as ->. reflexivity. }
        destruct e' as [h' data']. cbn in He', Hdata. subst h'.
        destruct (rc5 =? Z_OK); cbn [negb] in H.
        -- apply ret_inv in H as [-> ->]. exists n, data'. repeat split; assumption.
        -- run_bind H u6 w6 E6;
             apply (zipClose_inv _ _ _ _ Hz5) in E6
               as (Hf6 & rc6 & Hr6 & Hz6); [ | discriminate].
           apply boost_throw_inv in H as [-> ->].
           exists [mkZipEntry (file_header relpath) data']. rewrite Hz6. zip_norm.
           split; [reflexivity | ]. split; [right; now exists data' | now left].
      * pose proof (write_file_data_inv _ _ _ _ _ _ _ _ _ _ Hz2 E3)
          as (Hf3 & -> & e' & He' & Hz3).
        cbn in He'. destruct e' as [h' data']. cbn in He'. subst h'.
        exists [mkZipEntry (file_header relpath) data'].
        split; [exact Hz3 | ]. split; [right; now exists data' | now left].
    + apply QFile_open_failed in E2. rewrite Hf1 in E2.
      run_bind H u3 w3 E3;
        apply (zipCloseFileInZip_inv _ _ _ _ _ _ _ Hz2) in E3
          as (Hf3 & rc3 & Hr3 & Hz3); [ | discriminate].
      run_bind H u4 w4 E4;
        apply (zipClose_inv _ _ _ _ Hz3) in E4
          as (Hf4 & rc4 & Hr4 & Hz4); [ | discriminate].
      apply boost_throw_inv in H as [-> ->].
      exists [mkZipEntry (file_header relpath) []]. rewrite Hz4. zip_norm.
      split; [reflexivity | ]. split; [right; now exists [] | right; now split].
  - run_bind H u1 w2 E2;
      apply (zipClose_inv _ _ _ _ Hz1) in E2
        as (Hf2 & rc2 & Hr2 & Hz2); [ | discriminate].
    apply boost_throw_inv in H as [-> ->].
    exists []. rewrite Hz2. zip_norm.
    split; [reflexivity | ]. split; [now left | now left].
Qed.

End ArchiveWriterOutcome.

Section ArchiveWriterLoop.

Variable fullfolderpath : string.

(** The loop over the directory: every entry visited before a failure is
    archived; the failing one leaves at most its own entry; nothing after
    it is touched. *)
Lemma add_file_entries_outcome entries :
  forall w r w' p d c,
    w_zip w = Some (mkZipFile p d None c) ->
    add_file_entries fullfolderpath entries w = (r, w') ->
    match r with
    | Ok _ =>
        exists added,
          w_zip w' = Some (mkZipFile p (d ++ added) None c) /\
          Forall2 (archived_as fullfolderpath (w_files w)) entries added
    | Throw ex =>
        exists before it after added last,
          entries = (before ++ it :: after)%list /\
          w_zip w' = Some (mkZipFile p (d ++ added ++ last) None true) /\
          Forall2 (archived_as fullfolderpath (w_files w)) before added /\
          (last = [] \/
           exists data,
             last = [mkZipEntry (file_header (relpath_of fullfolderpath (fst it))) data]) /\
          failure_at fullfolderpath (w_files w) it ex
    end.
Proof.
  induction entries as [ | it entries' IH]; intros w r w' p d c Hz H;
    cbn [add_file_entries] in H.
  - apply ret_inv in H as [-> ->]. exists []. rewrite app_nil_r. split; [exact Hz | constructor].
  - apply bind_inv in H.
    destruct H as [(u & w1 & E & H) | (ex & E & ->)];
      pose proof (add_file_entry_inv fullfolderpath _ _ _ _ _ _ _ Hz E) as [Hf1 _];
      apply (add_file_entry_outcome fullfolderpath _ _ _ _ _ _ _ Hz) in E; cbv zeta in E.
    + destruct E as (n & data & Hlook & Hopen & Hz1 & Hdata).
      assert (Harch : archived_as fullfolderpath (w_files w) it
                (mkZipEntry (file_header (relpath_of fullfolderpath (fst it))) data)).
      { split; [reflexivity | ]. split; [now exists n | ].
        intros (n' & Hlook' & _ & Hwell). unfold content_at. rewrite Hlook.
        rewrite Hlook in Hlook'. injection Hlook' as <-. now apply Hdata. }
      apply (IH _ _ _ _ _ _ Hz1) in H. rewrite Hf1 in H.
      destruct r as [u' | ex].
      * destruct H as (added & Hz2 & Hall).
        exists (mkZipEntry (file_header (relpath_of fullfolderpath (fst it))) data :: added).
        split; [rewrite Hz2, <- app_assoc; reflexivity | now constructor].
      * destruct H as (before & it' & after & added & last & -> & Hz2 & Hall & Hlast & Hex).
        exists (it :: before), it', after,
               (mkZipEntry (file_header (relpath_of fullfolderpath (fst it))) data :: added),
               last.
        split; [reflexivity | ].
        split; [rewrite Hz2, <- app_assoc; reflexivity | ].
        split; [now constructor | now split].
    + destruct E as (last & Hz1 & Hlast & Hex).
      exists [], it, entries', [], last.
      split; [reflexivity | ]. split; [exact Hz1 | ].
      split; [constructor | ]. split; [exact Hlast | exact Hex].
Qed.

End ArchiveWriterLoop.

(** ** The archive writer, in full *)

(** Every way out of the archive writer.  When it returns, the archive at
    [fullfilepath] is closed and holds the first entry, with the C string
    found at [mime_data], and then the archived form of each directory
    entry visited.  When it throws, either
    the archive could not be created; or the mimetype entry failed and the
    closed archive holds at most that entry; or archiving a directory
    entry failed, and the closed archive holds the mimetype entry, the
    entries visited before and at most the failing one. *)
Lemma SaveFolderAsEpubToLocation_outcome fullfolderpath fullfilepath w r w' :
  SaveFolderAsEpubToLocation fullfolderpath fullfilepath w = (r, w') ->
  let entries := visited fullfolderpath (w_files w) in
  let mimetype := mkZipEntry mimetype_header (c_string (w_freed w)) in
  match r with
  | Ok _ =>
      exists rest,
        w_zip w' = Some (mkZipFile fullfilepath (mimetype :: rest) None true) /\
        Forall2 (archived_as fullfolderpath (w_files w)) entries rest
  | Throw ex =>
      (ex = CannotOpenFile_at fullfilepath /\ w_zip w' = None) \/
      (ex = CannotStoreFile_at "mimetype" /\
       exists done,
         w_zip w' = Some (mkZipFile fullfilepath done None true) /\
         (done = [] \/ done = [mkZipEntry mimetype_header []])) \/
      (exists before it after added last,
         entries = (before ++ it :: after)%list /\
         w_zip w' = Some (mkZipFile fullfilepath (mimetype :: added ++ last) None true) /\
         Forall2 (archived_as fullfolderpath (w_files w)) before added /\
         (last = [] \/
          exists data,
            last = [mkZipEntry (file_header (relpath_of fullfolderpath (fst it))) data]) /\
         failure_at fullfolderpath (w_files w) it ex)
  end.
Proof.
  intros H. cbv zeta. unfold SaveFolderAsEpubToLocation in H.
  run_bind H zfile w1 E1;
    pose proof E1 as E1m;
    apply zipOpen64_inv in E1 as (Hf1 & Hcase); [ | destruct Hcase as [[? _] | [? _]]; discriminate].
  destruct Hcase as [[Hr Hz1] | [Hr Hz1]]; injection Hr as ->; cbn [negb] in H.
  2:{ apply boost_throw_inv in H as [-> ->]. left. now split. }
  unfold zipOpenNewFileInZip64 in H.
  run_bind H rc w2 E2;
    pose proof E2 as E2m;
    apply (zipOpenNewFileInZip4_64_inv _ _ _ _ _ _ _ _ _ _ _ _ _ _ _ _ Hz1) in E2
      as (Hf2 & rc' & Hr & Hcase); [ | discriminate].
  injection Hr as <-. fold mimetype_header in Hcase.
  unfold open_entry, zip_entries in Hcase.
  cbn [zf_path zf_done zf_cur zf_closed option_list app] in Hcase.
  destruct Hcase as [[Hrc Hz2] | [Hrc Hz2]]; rewrite Hrc in H; cbn [negb] in H.
  2:{ run_bind H u w3 E3;
        apply (zipClose_inv _ _ _ _ Hz2) in E3 as (Hf3 & rc3 & Hr3 & Hz3); [ | discriminate].
      apply boost_throw_inv in H as [-> ->]. right. left. split; [reflexivity | ].
      exists []. rewrite Hz3. zip_norm. split; [reflexivity | now left]. }
  assert (Hm2 : w_freed w2 = w_freed w)
    by (rewrite (zipOpenNewFileInZip4_64_freed _ _ _ _ _ _ _ _ _ _ _ _ _ _ _ E2m);
        exact (zipOpen64_freed _ _ _ _ E1m)).
  run_bind H mime_data wm Em;
    apply constData_of_temporary_inv in Em as [Hr ->]; [ | discriminate].
  injection Hr as ->. rewrite Hm2 in H.
  run_bind H rc3 w3 E3;
    apply (zipWriteInFileInZip_inv _ _ _ _ _ _ _ _ _ Hz2) in E3
      as (Hf3 & rc3' & Hr & Hcase); [ | discriminate].
  injection Hr as <-. fold (c_string (w_freed w)) in Hcase.
  unfold append_data in Hcase. cbn [ze_header ze_data app] in Hcase.
  destruct Hcase as [[Hrc3 Hz3] | [Hrc3 Hz3]]; rewrite Hrc3 in H; cbn [negb] in H.
  2:{ run_bind H u w4 E4;
        apply (zipCloseFileInZip_inv _ _ _ _ _ _ _ Hz3) in E4
          as (Hf4 & rc4 & Hr4 & Hz4); [ | discriminate].
      run_bind H u5 w5 E5;
        apply (zipClose_inv _ _ _ _ Hz4) in E5 as (Hf5 & rc5 & Hr5 & Hz5); [ | discriminate].
      apply boost_throw_inv in H as [-> ->]. right. left. split; [reflexivity | ].
      exists [mkZipEntry mimetype_header []]. rewrite Hz5. zip_norm.
      split; [reflexivity | now right]. }
  run_bind H u w4 E4;
    apply (zipCloseFileInZip_inv _ _ _ _ _ _ _ Hz3) in E4
      as (Hf4 & rc4 & Hr4 & Hz4); [ | discriminate].
  cbn [app] in Hz4.
  run_bind H entries w5 E5; [ | discriminate].
  unfold QDirIterator in E5. injection E5 as <- <-.
  fold (visited fullfolderpath (w_files w4)) in H.
  assert (Hfs : w_files w4 = w_files w) by congruence. rewrite Hfs in H.
  apply bind_inv in H.
  destruct H as [(u6 & w6 & E6 & H) | (ex & E6 & ->)];
    apply (add_file_entries_outcome _ _ _ _ _ _ _ _ Hz4) in E6; rewrite Hfs in E6.
  - destruct E6 as (added & Hz6 & Hall).
    run_bind H u7 w7 E7;
      apply (zipClose_inv _ _ _ _ Hz6) in E7 as (Hf7 & rc7 & Hr7 & Hz7); [ | discriminate].
    apply ret_inv in H as [-> ->]. exists added. rewrite Hz7. zip_norm.
    split; [reflexivity | exact Hall].
  - destruct E6 as (before & it & after & added & last & Hent & Hz6 & Hall & Hlast & Hex).
    right. right. exists before, it, after, added, last.
    split; [exact Hent | ]. split; [exact Hz6 | ]. split; [exact Hall | now split].
Qed.

Lemma archived_as_names root fs entries es :
  Forall2 (archived_as root fs) entries es ->
  map entry_name es = map (fun it => relpath_of root (fst it)) entries.
Proof.
  induction 1 as [ | it e entries es (He & _) _ IH]; [reflexivity | ].
  cbn [map]. unfold entry_name at 1. rewrite He, IH. reflexivity.
Qed.

Lemma firstn_before (A : Type) (before after : list A) :
  firstn (List.length before) (before ++ after) = before.
Proof.
  induction before as [ | x before IH]; cbn; [reflexivity | now rewrite IH].
Qed.

Lemma firstn_through (A : Type) (before : list A) (it : A) (after : list A) :
  firstn (S (List.length before)) (before ++ it :: after) = (before ++ [it])%list.
Proof.
  induction before as [ | x before IH]; cbn [List.length app]; [reflexivity | ].
  cbn [firstn] in *. now rewrite IH.
Qed.

(** The entries after the first are those of the directory entries
    visited, in order: all of them when the writer returns, the first
    [n] of them when it throws. *)
Lemma later_entries_of_visited fullfolderpath fullfilepath w r w' :
  SaveFolderAsEpubToLocation fullfolderpath fullfilepath w = (r, w') ->
  exists n,
    map ze_header (later_entries w')
    = map (fun it => file_header (relpath_of fullfolderpath (fst it)))
          (firstn n (visited fullfolderpath (w_files w))) /\
    (forall u, r = Ok u -> n = List.length (visited fullfolderpath (w_files w))).
Proof.
  assert (Harch : forall fs entries es,
             Forall2 (archived_as fullfolderpath fs) entries es ->
             map ze_header es
             = map (fun it => file_header (relpath_of fullfolderpath (fst it))) entries).
  { induction 1 as [ | it e entries es (He & _) _ IH]; [reflexivity | ].
    cbn [map]. now rewrite He, IH. }
  intros H. apply SaveFolderAsEpubToLocation_outcome in H. cbv zeta in H.
  unfold later_entries. destruct r as [u | ex].
  - destruct H as (rest & -> & Hall). zip_norm. cbn [tl].
    exists (List.length (visited fullfolderpath (w_files w))).
    rewrite firstn_all. split; [eapply Harch; exact Hall | reflexivity].
  - destruct H as [[_ ->] | [(_ & done & -> & Hdone) | H]].
    + exists O. split; [reflexivity | discriminate].
    + exists O. zip_norm. split; [now destruct Hdone as [-> | ->] | discriminate].
    + destruct H as (before & it & after & added & last & Hent & -> & Hall & Hlast & _).
      zip_norm. cbn [tl]. rewrite Hent, map_app, (Harch _ _ _ Hall).
      destruct Hlast as [-> | [data ->]].
      * exists (List.length before). rewrite firstn_before, app_nil_r.
        split; [reflexivity | discriminate].
      * exists (S (List.length before)). rewrite firstn_through, map_app.
        split; [reflexivity | discriminate].
Qed.

(** ** The archive writer: the claims *)





(** The first of the slips the amended C1 leaves out.  Line 134 keeps a
    pointer into a byte array that is destroyed at the end of the
    statement: when the memory holds something else by the time line 135
    reads it, the writer returns normally and the first entry holds what
    was found there. *)
Lemma mimetype_read_from_freed_memory :
  let run := SaveFolderAsEpubToLocation "/stage" "/out.epub" reused_memory in
  fst run = Ok tt /\
  map (fun e => (entry_name e, ze_data e)) (archive_entries (w_zip (snd run)))
  = [("mimetype", QString.toUtf8 "junk")].
Proof. split; vm_compute; reflexivity. Qed.

(** The second: lines 140 and 191 drop the results of the close of the
    mimetype entry and of the close of the archive.  When both fail the
    writer still returns normally. *)
Lemma failed_closes_go_unreported :
  let run := SaveFolderAsEpubToLocation "/stage" "/out.epub" failing_closes in
  fst run = Ok tt /\
  calls (snd run)
  = [ Ev_zipOpen64 "/out.epub" true;
      Ev_zipOpenNewFileInZip4_64 mimetype_header Z_OK;
      Ev_zipWriteInFileInZip 20 Z_OK;
      Ev_zipCloseFileInZip (-1);
      Ev_zipClose (-1) ] /\
  ~ closes_succeeded failing_closes (snd run).
Proof.
  cbv zeta. split; [vm_compute; reflexivity | ]. split; [vm_compute; reflexivity | ].
  intros (added & Ht & Hall).
  assert (Hadded : added
                   = w_trace (snd (SaveFolderAsEpubToLocation "/stage" "/out.epub"
                                                             failing_closes))).
  { rewrite Ht. change (w_trace failing_closes) with (@nil Event).
    now rewrite app_nil_r. }
  rewrite Hadded in Hall. vm_compute in Hall. discriminate Hall.
Qed.

(** The entries after the first, in every run of the writer, carry the
    header line 153 gives them. *)
Lemma later_entries_headers fullfolderpath fullfilepath w :
  Forall (fun e => exists relpath, ze_header e = file_header relpath)
         (later_entries (snd (SaveFolderAsEpubToLocation fullfolderpath fullfilepath w))).
Proof.
  destruct (SaveFolderAsEpubToLocation fullfolderpath fullfilepath w) as [r w'] eqn:H.
  apply SaveFolderAsEpubToLocation_inv in H as (_ & Hent & _).
  unfold later_entries. cbn [snd].
  destruct Hent as [-> | (data & rest & -> & Hall)]; [constructor | exact Hall].
Qed.

(** C3, as the claim words it, fails on the two-file staged directory:
    the entries of its files do not ask for the ZIP64 header. *)
Lemma zip64_always_requested_refuted :
  ~ (forall fullfolderpath fullfilepath w,
       zip64_requested (snd (SaveFolderAsEpubToLocation fullfolderpath fullfilepath w))).
Proof.
  intros H. specialize (H "/stage" "/out.epub" two_files_stage).
  unfold zip64_requested in H.
  assert (Hl : later_entries
                 (snd (SaveFolderAsEpubToLocation "/stage" "/out.epub" two_files_stage))
               <> []) by (vm_compute; discriminate).
  destruct (later_entries _) as [ | e rest] eqn:E; [now elim Hl | ].
  pose proof (later_entries_headers "/stage" "/out.epub" two_files_stage) as Hh.
  rewrite E in Hh. inversion Hh as [ | ? ? [relpath He] _]; subst.
  inversion H as [ | ? ? Hz _]; subst. apply Hz. now rewrite He.
Qed.

(** C3 (amended): every file added to the archive after the mimetype
    entry whose uncompressed size is below 0xffffffff has its entry
    opened with the zip64 argument 0: the ZIP64 entry header is not
    requested for it.  The entries after the first are those of the
    directory entries visited, in order: all of them when the writer
    returns, the first [n] of them when it throws; each is named by the
    [relpath] of its file. *)
Theorem zip64_not_requested fullfolderpath fullfilepath w :
  let run := SaveFolderAsEpubToLocation fullfolderpath fullfilepath w in
  exists n,
    Forall2 (fun it e =>
               entry_name e = relpath_of fullfolderpath (fst it) /\
               (file_size (snd it) < 0xffffffff -> eh_zip64 (ze_header e) = 0))
            (firstn n (visited fullfolderpath (w_files w)))
            (later_entries (snd run)) /\
    (forall u, fst run = Ok u -> n = List.length (visited fullfolderpath (w_files w))).
Proof.
  cbv zeta.
  destruct (SaveFolderAsEpubToLocation fullfolderpath fullfilepath w) as [r w'] eqn:H.
  cbn [fst snd].
  apply later_entries_of_visited in H as (n & Hheaders & Hn).
  exists n. split; [ | exact Hn].
  revert Hheaders. generalize (later_entries w').
  induction (firstn n (visited fullfolderpath (w_files w))) as [ | it its IH];
    intros [ | e es] Hheaders; try discriminate Hheaders; constructor.
  - injection Hheaders as He _. unfold entry_name. rewrite He. now split.
  - injection Hheaders as _ Hes. now apply IH.
Qed.

Lemma zip64_not_requested_witness :
  exists n,
    Forall2 (fun it e =>
               entry_name e = relpath_of "/stage" (fst it) /\
               (file_size (snd it) < 0xffffffff -> eh_zip64 (ze_header e) = 0))
            (firstn n (visited "/stage" (w_files two_files_stage)))
            (later_entries (snd (SaveFolderAsEpubToLocation "/stage" "/out.epub"
                                                            two_files_stage))) /\
    (forall u, fst (SaveFolderAsEpubToLocation "/stage" "/out.epub" two_files_stage) = Ok u ->
               n = List.length (visited "/stage" (w_files two_files_stage))).
Proof.
  exact (zip64_not_requested "/stage" "/out.epub" two_files_stage).
Defined.

(** C4, as the claim words it, fails on the two-file staged directory:
    the entries of its files are not opened at the default level. *)
Lemma default_level_refuted :
  ~ (forall fullfolderpath fullfilepath w,
       deflated_at_default_level
         (snd (SaveFolderAsEpubToLocation fullfolderpath fullfilepath w))).
Proof.
  intros H. specialize (H "/stage" "/out.epub" two_files_stage).
  unfold deflated_at_default_level in H.
  assert (Hl : later_entries
                 (snd (SaveFolderAsEpubToLocation "/stage" "/out.epub" two_files_stage))
               <> []) by (vm_compute; discriminate).
  destruct (later_entries _) as [ | e rest] eqn:E; [now elim Hl | ].
  pose proof (later_entries_headers "/stage" "/out.epub" two_files_stage) as Hh.
  rewrite E in Hh. inversion Hh as [ | ? ? [relpath He] _]; subst.
  inversion H as [ | ? ? [_ Hlevel] _]; subst.
  rewrite He in Hlevel. discriminate Hlevel.
Qed.

(** C4 (amended): every entry after the mimetype entry is opened with the
    compression method deflate, at compression level 8. *)
Theorem deflated_at_level_8 fullfolderpath fullfilepath w :
  Forall (fun e => eh_method (ze_header e) = Z_DEFLATED /\ eh_level (ze_header e) = 8)
         (later_entries (snd (SaveFolderAsEpubToLocation fullfolderpath fullfilepath w))).
Proof.
  eapply Forall_impl; [ | apply later_entries_headers].
  intros e [relpath ->]. split; reflexivity.
Qed.




(** The slip the amended C8 leaves out: [QString::remove] cuts every
    occurrence of the directory's path, so a file at /t/a/t/b below /t is
    archived as a/b, not as a/t/b. *)
Lemma repeated_root_is_cut :
  root_relative "/t" "/t/a/t/b" = "a/t/b" /\
  map entry_name (later_entries (snd (SaveFolderAsEpubToLocation "/t" "/out.epub" nested_stage)))
  = ["a/b"].
Proof. split; vm_compute; reflexivity. Qed.

(** C2 (the code departs from the claim): a file whose first read fails.
    The -1 of the read, kept in the unsigned [read], is 4294967295; the
    loop goes on and writes that many bytes, the test of line 179 sees no
    error, and the writer returns normally. *)
Theorem read_error_goes_unreported :
  fst (SaveFolderAsEpubToLocation "/stage" "/out.epub" read_error_stage) = Ok tt /\
  calls (snd (SaveFolderAsEpubToLocation "/stage" "/out.epub" read_error_stage))
  = [ Ev_zipOpen64 "/out.epub" true;
      Ev_zipOpenNewFileInZip4_64 mimetype_header Z_OK;
      Ev_zipWriteInFileInZip 20 Z_OK;
      Ev_zipCloseFileInZip Z_OK;
      Ev_zipOpenNewFileInZip4_64 (file_header "a.txt") Z_OK;
      Ev_QFile_open "/stage/a.txt" true;
      Ev_QFile_read (-1);
      Ev_zipWriteInFileInZip 4294967295 Z_OK;
      Ev_QFile_read 0;
      Ev_QFile_close;
      Ev_zipCloseFileInZip Z_OK;
      Ev_zipClose Z_OK ].
Proof. split; vm_compute; reflexivity. Qed.

(** C7 (the code departs from the claim): a listed file in a
    subdirectory that cannot be opened.  The error names the file by
    [it.fileName()], its last path component, not by its relative
    path. *)
Theorem open_failure_names_the_base_name :
  fst (SaveFolderAsEpubToLocation "/stage" "/out.epub" unopenable_stage)
  = Throw (CannotOpenFile_at "chapter1.xhtml") /\
  root_relative "/stage" "/stage/Text/chapter1.xhtml" = "Text/chapter1.xhtml" /\
  relpath_of "/stage" "/stage/Text/chapter1.xhtml" = "Text/chapter1.xhtml".
Proof. repeat split; vm_compute; reflexivity. Qed.

(** ** The font pass *)

Section FontPassFacts.

Context {Book : Type} {BM : BookModel Book}.
Variables (book : Book) (fullfolderpath : string).

Lemma isEmpty_spec (s : string) : QString.isEmpty s = true <-> s = EmptyString.
Proof. destruct s; cbn; split; congruence. Qed.

Lemma ObfuscateFile_inv path algorithm key w r w' :
  ObfuscateFile path algorithm key w = (r, w') ->
  w_trace w' = Ev_ObfuscateFile path algorithm key :: w_trace w /\
  match r with
  | Ok _ => True
  | Throw e =>
      exists fs, fst (FontObfuscation_ObfuscateFile path algorithm key fs) = Some e
  end.
Proof.
  unfold ObfuscateFile, on_files. cbn [w_files log].
  destruct (FontObfuscation_ObfuscateFile path algorithm key (w_files w))
    as [[e | ] fs] eqn:E; intros H; inversion H; subst; cbn; split; auto.
  exists (w_files w). now rewrite E.
Qed.

(** One turn of the [foreach]. *)
Lemma obfuscate_font_inv font_resource w r w' :
  obfuscate_font (GetUUIDIdentifierValue book) (GetPublicationIdentifier book)
                 fullfolderpath font_resource w = (r, w') ->
  exists out,
    handled_as book fullfolderpath font_resource out /\
    w_trace w' = (rev out ++ w_trace w)%list /\
    match r with
    | Ok _ => True
    | Throw e => thrown_obfuscating fullfolderpath font_resource e
    end.
Proof.
  unfold obfuscate_font. cbv zeta.
  destruct (QString.isEmpty (GetObfuscationAlgorithm font_resource)) eqn:Hempty.
  - intros H. apply ret_inv in H as [-> ->]. apply isEmpty_spec in Hempty.
    exists []. split; [now constructor | now split].
  - assert (Hne : GetObfuscationAlgorithm font_resource <> EmptyString).
    { intros Heq. apply isEmpty_spec in Heq. congruence. }
    fold (font_path fullfolderpath font_resource).
    destruct (String.eqb_spec (GetObfuscationAlgorithm font_resource) ADOBE_FONT_ALGO_ID)
      as [Hadobe | Hother];
      intros H; apply ObfuscateFile_inv in H as [Htrace Hr].
    + exists [Ev_ObfuscateFile (font_path fullfolderpath font_resource)
                               (GetObfuscationAlgorithm font_resource)
                               (GetUUIDIdentifierValue book)].
      split; [now apply handled_uuid_keyed | ]. split; [exact Htrace | ].
      destruct r as [u | e]; [exact I | ]. destruct Hr as [fs Hfs].
      split; [exact Hne | now exists (GetUUIDIdentifierValue book), fs].
    + exists [Ev_ObfuscateFile (font_path fullfolderpath font_resource)
                               (GetObfuscationAlgorithm font_resource)
                               (GetPublicationIdentifier book)].
      split; [now apply handled_publication_keyed | ]. split; [exact Htrace | ].
      destruct r as [u | e]; [exact I | ]. destruct Hr as [fs Hfs].
      split; [exact Hne | now exists (GetPublicationIdentifier book), fs].
Qed.

(** The whole loop: the resources are handled in order, up to the first
    one whose obfuscation throws. *)
Lemma foreach_obfuscate_font_inv font_resources :
  forall w r w',
    foreach font_resources
            (obfuscate_font (GetUUIDIdentifierValue book) (GetPublicationIdentifier book)
                            fullfolderpath) w = (r, w') ->
    exists n outs,
      Forall2 (handled_as book fullfolderpath) (firstn n font_resources) outs /\
      w_trace w' = (rev (List.concat outs) ++ w_trace w)%list /\
      match r with
      | Ok _ => n = List.length font_resources
      | Throw e =>
          exists before font_resource,
            firstn n font_resources = (before ++ [font_resource])%list /\
            thrown_obfuscating fullfolderpath font_resource e
      end.
Proof.
  induction font_resources as [ | fr rest IH]; intros w r w' H; cbn [foreach] in H.
  - apply ret_inv in H as [-> ->]. exists O, []. cbn. repeat split; constructor.
  - apply bind_inv in H. destruct H as [(u & w1 & E & H) | (e & E & ->)];
      apply obfuscate_font_inv in E as (out & Hout & Htrace & Hr).
    + apply IH in H as (n & outs & Hall & Htrace' & Hr').
      exists (S n), (out :: outs). cbn [firstn List.concat]. split; [now constructor | ].
      split.
      * rewrite Htrace', Htrace, rev_app_distr, app_assoc. reflexivity.
      * destruct r as [u' | e]; [cbn; now rewrite Hr' | ].
        destruct Hr' as (before & fr' & Hfirst & Hthrown).
        exists (fr :: before), fr'. rewrite Hfirst. now split.
    + exists 1%nat, [out]. cbn [firstn List.concat]. rewrite app_nil_r.
      split; [repeat constructor; exact Hout | ]. split; [exact Htrace | ].
      exists [], fr. now split.
Qed.

(** One turn of the [foreach], on the files. *)
Lemma obfuscate_font_files font_resource w r w' :
  obfuscate_font (GetUUIDIdentifierValue book) (GetPublicationIdentifier book)
                 fullfolderpath font_resource w = (r, w') ->
  font_obfuscated book fullfolderpath font_resource (w_files w)
    (match r with Ok _ => None | Throw e => Some e end, w_files w').
Proof.
  unfold obfuscate_font. cbv zeta.
  destruct (QString.isEmpty (GetObfuscationAlgorithm font_resource)) eqn:Hempty.
  - intros H. apply ret_inv in H as [-> ->]. apply isEmpty_spec in Hempty.
    now apply font_skipped.
  - assert (Hne : GetObfuscationAlgorithm font_resource <> EmptyString).
    { intros Heq. apply isEmpty_spec in Heq. congruence. }
    fold (font_path fullfolderpath font_resource).
    destruct (String.eqb_spec (GetObfuscationAlgorithm font_resource) ADOBE_FONT_ALGO_ID)
      as [Hadobe | Hother];
      unfold ObfuscateFile, on_files; cbn [w_files log]; intros H.
    + pose proof (font_uuid_keyed book fullfolderpath font_resource (w_files w) Hne Hadobe)
        as Hstep.
      destruct (FontObfuscation_ObfuscateFile _ _ _ (w_files w)) as [[e | ] fs];
        injection H as <- <-; exact Hstep.
    + pose proof (font_publication_keyed book fullfolderpath font_resource (w_files w)
                    Hne Hother) as Hstep.
      destruct (FontObfuscation_ObfuscateFile _ _ _ (w_files w)) as [[e | ] fs];
        injection H as <- <-; exact Hstep.
Qed.

(** The whole loop, on the files. *)
Lemma foreach_font_pass font_resources :
  forall w r w',
    foreach font_resources
            (obfuscate_font (GetUUIDIdentifierValue book) (GetPublicationIdentifier book)
                            fullfolderpath) w = (r, w') ->
    font_pass book fullfolderpath font_resources (w_files w) r (w_files w').
Proof.
  induction font_resources as [ | fr rest IH]; intros w r w' H; cbn [foreach] in H.
  - apply ret_inv in H as [-> ->]. constructor.
  - apply bind_inv in H. destruct H as [(u & w1 & E & H) | (e & E & ->)];
      apply obfuscate_font_files in E.
    + eapply pass_next; [exact E | now apply IH].
    + now apply pass_thrown.
Qed.

Lemma foreach_app {A} (xs ys : list A) (body : A -> M unit) w :
  foreach (xs ++ ys) body w
  = match foreach xs body w with
    | (Ok _, w1) => foreach ys body w1
    | (Throw e, w1) => (Throw e, w1)
    end.
Proof.
  revert w. induction xs as [ | x xs IH]; intros w; [reflexivity | ].
  cbn [app foreach]. unfold bind.
  destruct (body x w) as [[u | e] w1]; [apply IH | reflexivity].
Qed.

Lemma font_pass_nil fs r fs' :
  font_pass book fullfolderpath [] fs r fs' -> r = Ok tt /\ fs' = fs.
Proof. intros H. inversion H; subst. now split. Qed.

(** C5: [ObfuscateFonts] takes the font resources in order.  A resource
    with an empty algorithm tag is skipped: the files stay as they are,
    nothing is called and there is no error.  A resource with the Adobe
    tag is obfuscated with the UUID identifier of the document as the
    key, a resource with any other tag with the publication identifier
    as the key: the files become what [FontObfuscation::ObfuscateFile]
    makes of them with that key.  The exception of an obfuscation leaves
    [ObfuscateFonts] as it is, and ends the pass.  The calls logged are
    those of the resources handled. *)
Theorem ObfuscateFonts_key_selection w :
  let run := ObfuscateFonts book fullfolderpath w in
  font_pass book fullfolderpath (GetFontResources book)
            (w_files w) (fst run) (w_files (snd run)) /\
  exists n outs,
    Forall2 (handled_as book fullfolderpath)
            (firstn n (GetFontResources book)) outs /\
    calls (snd run) = (calls w ++ List.concat outs)%list /\
    match fst run with
    | Ok _ => n = List.length (GetFontResources book)
    | Throw e =>
        exists before font_resource,
          firstn n (GetFontResources book) = (before ++ [font_resource])%list /\
          thrown_obfuscating fullfolderpath font_resource e
    end.
Proof.
  cbv zeta. destruct (ObfuscateFonts book fullfolderpath w) as [r w'] eqn:H.
  unfold ObfuscateFonts in H. cbv zeta in H. cbn [fst snd]. split.
  - now apply foreach_font_pass.
  - apply foreach_obfuscate_font_inv in H as (n & outs & Hall & Htrace & Hr).
    exists n, outs. split; [exact Hall | ]. split; [ | exact Hr].
    unfold calls. now rewrite Htrace, rev_app_distr, rev_involutive.
Qed.

(** C10: a font resource whose algorithm tag is neither empty nor the
    Adobe identifier, known or not, is never skipped and never rejected.
    Unless the obfuscation of an earlier resource threw, which ends the
    pass with that exception, [FontObfuscation::ObfuscateFile] is called
    for it with the publication identifier as the key, on the files as
    the earlier resources left them: the files become what that call
    makes of them, and then the pass goes on with the later resources;
    or the call throws, and its exception leaves [ObfuscateFonts]. *)
Theorem unknown_algorithm_uses_publication_identifier
    w r w' before font_resource after :
  ObfuscateFonts book fullfolderpath w = (r, w') ->
  GetFontResources book = (before ++ font_resource :: after)%list ->
  GetObfuscationAlgorithm font_resource <> EmptyString ->
  GetObfuscationAlgorithm font_resource <> ADOBE_FONT_ALGO_ID ->
  (exists e,
     r = Throw e /\
     font_pass book fullfolderpath before (w_files w) (Throw e) (w_files w'))
  \/
  (exists fs0,
     font_pass book fullfolderpath before (w_files w) (Ok tt) fs0 /\
     (let obfuscated :=
        FontObfuscation_ObfuscateFile (font_path fullfolderpath font_resource)
          (GetObfuscationAlgorithm font_resource) (GetPublicationIdentifier book) fs0 in
      match fst obfuscated with
      | Some e => r = Throw e /\ w_files w' = snd obfuscated
      | None => font_pass book fullfolderpath after (snd obfuscated) r (w_files w')
      end) /\
     exists earlier later,
       calls w'
       = (calls w ++ earlier
          ++ Ev_ObfuscateFile (font_path fullfolderpath font_resource)
                              (GetObfuscationAlgorithm font_resource)
                              (GetPublicationIdentifier book)
          :: later)%list).
Proof.
  intros H Hfonts Hne Hother. unfold ObfuscateFonts in H. cbv zeta in H.
  rewrite Hfonts, foreach_app in H.
  destruct (foreach before _ w) as [[u | e] w1] eqn:Eb.
  - right. exists (w_files w1). destruct u.
    pose proof (foreach_font_pass _ _ _ _ Eb) as Hbefore.
    apply foreach_obfuscate_font_inv in Eb as (n1 & outs1 & _ & Ht1 & _).
    split; [exact Hbefore | ].
    cbn [foreach] in H. unfold bind at 1 in H. unfold obfuscate_font at 1 in H.
    cbv zeta in H.
    assert (Hempty : QString.isEmpty (GetObfuscationAlgorithm font_resource) = false).
    { destruct (QString.isEmpty _) eqn:E; [ | reflexivity].
      apply isEmpty_spec in E. contradiction. }
    rewrite Hempty in H. apply String.eqb_neq in Hother. rewrite Hother in H.
    fold (font_path fullfolderpath font_resource) in H.
    unfold ObfuscateFile at 1, on_files at 1 in H. cbn [w_files log] in H. cbv zeta.
    destruct (FontObfuscation_ObfuscateFile (font_path fullfolderpath font_resource)
                (GetObfuscationAlgorithm font_resource) (GetPublicationIdentifier book)
                (w_files w1)) as [[e | ] fs1]; cbn [fst snd].
    + injection H as <- <-. split; [now split | ].
      exists (rev (rev (List.concat outs1))), [].
      unfold calls. cbn [w_trace set_files log rev]. rewrite Ht1, rev_app_distr.
      now rewrite <- app_assoc.
    + pose proof (foreach_font_pass _ _ _ _ H) as Hafter. cbn [w_files set_files] in Hafter.
      split; [exact Hafter | ].
      apply foreach_obfuscate_font_inv in H as (n2 & outs2 & _ & Ht2 & _).
      exists (rev (rev (List.concat outs1))), (rev (rev (List.concat outs2))).
      unfold calls. rewrite Ht2. cbn [w_trace set_files log].
      rewrite rev_app_distr. cbn [rev]. rewrite Ht1, rev_app_distr.
      now rewrite <- !app_assoc.
  - left. injection H as <- <-. exists e. split; [reflexivity | ].
    now apply foreach_font_pass.
Qed.

End FontPassFacts.

Lemma unknown_algorithm_uses_publication_identifier_witness :
  @ObfuscateFonts _ keyed_model odd_font_book "/stage" odd_font_stage
  = (Ok tt, snd (@ObfuscateFonts _ keyed_model odd_font_book "/stage" odd_font_stage))
  /\ @GetFontResources _ keyed_model odd_font_book = ([] ++ odd_font :: [])%list
  /\ GetObfuscationAlgorithm odd_font <> EmptyString
  /\ GetObfuscationAlgorithm odd_font <> @ADOBE_FONT_ALGO_ID _ keyed_model
  /\ content_at
       (w_files (snd (@ObfuscateFonts _ keyed_model odd_font_book "/stage" odd_font_stage)))
       "/stage/Fonts/a.otf"
     = QString.toUtf8 "publication-id".
Proof.
  assert (Hrun : @ObfuscateFonts _ keyed_model odd_font_book "/stage" odd_font_stage
                 = (Ok tt, snd (@ObfuscateFonts _ keyed_model odd_font_book "/stage"
                                                odd_font_stage)))
    by (vm_compute; reflexivity).
  assert (Hfonts : @GetFontResources _ keyed_model odd_font_book = ([] ++ odd_font :: [])%list)
    by reflexivity.
  assert (Hne : GetObfuscationAlgorithm odd_font <> EmptyString) by discriminate.
  assert (Hother : GetObfuscationAlgorithm odd_font <> @ADOBE_FONT_ALGO_ID _ keyed_model)
    by discriminate.
  split; [exact Hrun | ]. split; [exact Hfonts | ].
  split; [exact Hne | ]. split; [exact Hother | ].
  destruct (@unknown_algorithm_uses_publication_identifier
              _ keyed_model odd_font_book "/stage" odd_font_stage _ _ [] odd_font []
              Hrun Hfonts Hne Hother)
    as [(e & Hr & _) | (fs0 & Hbefore & Hstep & _)]; [discriminate Hr | ].
  apply font_pass_nil in Hbefore as [_ ->].
  cbv zeta in Hstep.
  change (fst (@FontObfuscation_ObfuscateFile _ keyed_model
                 (@font_path "/stage" odd_font) (GetObfuscationAlgorithm odd_font)
                 (@GetPublicationIdentifier _ keyed_model odd_font_book)
                 (w_files odd_font_stage)))
    with (@None Exception) in Hstep.
  apply font_pass_nil in Hstep as [_ ->]. vm_compute. reflexivity.
Defined.

(** The pass on a book with three fonts, with the obfuscation that
    leaves its key in the file: the font without tag keeps its content,
    the Adobe font holds the UUID identifier, the IDPF font the
    publication identifier. *)
Lemma keys_left_in_the_fonts :
  let run := @ObfuscateFonts _ keyed_model three_fonts_book "/stage" three_fonts_stage in
  fst run = Ok tt /\
  map (fun path => content_at (w_files (snd run)) path)
      ["/stage/Fonts/plain.otf"; "/stage/Fonts/adobe.otf"; "/stage/Fonts/idpf.otf"]
  = [["p"%byte]; QString.toUtf8 "urn:uuid:ABCDEF"; QString.toUtf8 "publication-id"].
Proof. split; vm_compute; reflexivity. Qed.

(** The same when the staged copy of the Adobe font is missing: the
    exception of its obfuscation leaves [ObfuscateFonts], and the font
    after it is not touched. *)
Lemma pass_ends_at_the_exception :
  let run := @ObfuscateFonts _ keyed_model three_fonts_book "/stage" missing_font_stage in
  fst run = Throw (CannotOpenFile_at "/stage/Fonts/adobe.otf") /\
  w_files (snd run) = w_files missing_font_stage /\
  calls (snd run)
  = [Ev_ObfuscateFile "/stage/Fonts/adobe.otf" "http://ns.adobe.com/pdf/enc#RC"
                      "urn:uuid:ABCDEF"].
Proof. repeat split; vm_compute; reflexivity. Qed.

(** ** The encryption manifest *)

(** C6 (the code departs from the claim): the staged tree already holds
    META-INF/encryption.xml, so [QFile::copy] refuses to write the
    manifest and returns false.  Line 213 drops that result:
    [CreateEncryptionXML] returns normally and the old file stays. *)
Theorem manifest_copy_failure_is_silent :
  fst (CreateEncryptionXML stale_manifest_book "/stage/META-INF" stale_manifest_stage)
  = Ok tt /\
  calls (snd (CreateEncryptionXML stale_manifest_book "/stage/META-INF" stale_manifest_stage))
  = [Ev_QFile_copy "/tmp/qt_temp.0" "/stage/META-INF/encryption.xml" false] /\
  lookup_file "/stage/META-INF/encryption.xml"
    (w_files (snd (CreateEncryptionXML stale_manifest_book "/stage/META-INF"
                                       stale_manifest_stage)))
  = Some (plain_file [ReadBytes (QString.toUtf8 "stale")]).
Proof. repeat split; vm_compute; reflexivity. Qed.

(** The same through a whole export: the book's folder holds an old
    manifest, the export returns normally, and the archive carries the
    old manifest instead of the one written for the obfuscated font. *)
Lemma export_keeps_stale_manifest :
  let run := WriteBook (mkExportEPUB "/out.epub" stale_manifest_book) stale_manifest_world in
  fst run = Ok tt /\
  map (fun e => (entry_name e, ze_data e)) (archive_entries (w_zip (snd run)))
  = [("mimetype", mimetype_content);
     ("Fonts/a.otf", ["f"%byte]);
     ("META-INF/encryption.xml", QString.toUtf8 "stale")].
Proof. split; vm_compute; reflexivity. Qed.

(** Likewise when the folder the manifest is to lie in does not exist:
    the copy fails, [CreateEncryptionXML] returns normally, and there is
    no manifest. *)
Lemma manifest_into_missing_folder :
  let run := CreateEncryptionXML stale_manifest_book "/stage/META-INF" empty_stage in
  fst run = Ok tt /\
  calls (snd run)
  = [Ev_QFile_copy "/tmp/qt_temp.0" "/stage/META-INF/encryption.xml" false] /\
  lookup_file "/stage/META-INF/encryption.xml" (w_files (snd run)) = None.
Proof. repeat split; vm_compute; reflexivity. Qed.

(** And when the system refuses the copy, though the folder is there. *)
Lemma refused_copy_is_silent :
  let run := CreateEncryptionXML stale_manifest_book "/stage/META-INF" refusing_system in
  fst run = Ok tt /\
  calls (snd run)
  = [Ev_QFile_copy "/tmp/qt_temp.0" "/stage/META-INF/encryption.xml" false] /\
  lookup_file "/stage/META-INF/encryption.xml" (w_files (snd run)) = None.
Proof. repeat split; vm_compute; reflexivity. Qed.

Section ManifestFacts.

Context {Book : Type} {BM : BookModel Book}.

(** Whatever [QFile::copy] returns, once the temporary file is open
    [CreateEncryptionXML] returns normally. *)
Lemma CreateEncryptionXML_ignores_copy (book : Book) fullfolderpath w :
  w_tmpfile_error w = None ->
  fst (CreateEncryptionXML book fullfolderpath w) = Ok tt.
Proof.
  intros Hopen. unfold CreateEncryptionXML, scoped, QTemporaryFile.ctor.
  unfold bind at 1. unfold QTemporaryFile.open at 1. cbn [w_tmpfile_error set_temp].
  rewrite Hopen. cbn [negb]. unfold bind at 1. unfold ret at 1.
  unfold bind at 1. unfold QTemporaryFile.write at 1.
  unfold bind at 1.
  match goal with
  | |- context [QFile_copy ?a ?b ?w0] =>
      destruct (QFile_copy a b w0) as [[copied | e] w1] eqn:E
  end.
  - reflexivity.
  - unfold QFile_copy in E.
    repeat match type of E with
           | context [match ?x with _ => _ end] => destruct x
           end; discriminate.
Qed.

End ManifestFacts.

(** ** The export and its scratch directory *)

Section ExportFacts.

Context {Book : Type} {BM : BookModel Book}.


Lemma TempFolder_dtor_removes tempfolder w :
  ~ In tempfolder (w_tempdirs (TempFolder.dtor tempfolder w)) /\
  forall e, In e (w_files (TempFolder.dtor tempfolder w)) ->
            under tempfolder (fst e) = false.
Proof.
  unfold TempFolder.dtor. cbn [w_tempdirs w_files set_temp set_files]. split.
  - intros Hin. apply filter_In in Hin as [_ Hin].
    now rewrite String.eqb_refl in Hin.
  - intros e Hin. apply filter_In in Hin as [_ Hin]. now apply negb_true_iff in Hin.
Qed.


End ExportFacts.

(** An export that returns: the staged copies below the scratch directory
    were read for the archive, and the directory is gone afterwards. *)
Lemma export_leaves_no_scratch :
  let run := WriteBook (mkExportEPUB "/out.epub" stale_manifest_book) stale_manifest_world in
  fst run = Ok tt /\
  In (Ev_QFile_open "/tmp/Sigil/scratchpad/0/Fonts/a.otf" true) (calls (snd run)) /\
  w_tempdirs (snd run) = [] /\
  map fst (w_files (snd run)) = ["/book/Fonts/a.otf"; "/book/META-INF/encryption.xml"].
Proof. cbv zeta. split; [ | split; [ | split]]; vm_compute; auto 20. Qed.

(** An export in which the archive cannot be created: the exception of
    the archive writer leaves [WriteBook], the scratch directory is gone. *)
Lemma failed_export_leaves_no_scratch :
  let run := WriteBook (mkExportEPUB "/out.epub" stale_manifest_book)
                       (set_zip_rcs [-1] stale_manifest_world) in
  fst run = Throw (CannotOpenFile_at "/out.epub") /\
  In (Ev_ObfuscateFile "/tmp/Sigil/scratchpad/0/Fonts/a.otf"
                       "http://www.idpf.org/2008/embedding" "publication-id")
     (calls (snd run)) /\
  w_tempdirs (snd run) = [] /\
  map fst (w_files (snd run)) = ["/book/Fonts/a.otf"; "/book/META-INF/encryption.xml"].
Proof. cbv zeta. split; [ | split; [ | split]]; vm_compute; auto 20. Qed.

(* ================================================================== *)
(** * Part III. Further properties of the exporter *)
(* ================================================================== *)

(** ** Properties of the archive writer *)

(** X1: on every way out of the archive writer the archive is not left
    dangling: either it could not be created and the handle is NULL, or
    it is closed, at the destination path, with no entry left open. *)
Theorem archive_closed_on_every_exit fullfolderpath fullfilepath w :
  let w' := snd (SaveFolderAsEpubToLocation fullfolderpath fullfilepath w) in
  w_zip w' = None \/
  exists done, w_zip w' = Some (mkZipFile fullfilepath done None true).
Proof.
  cbv zeta.
  destruct (SaveFolderAsEpubToLocation fullfolderpath fullfilepath w) as [r w'] eqn:H.
  apply SaveFolderAsEpubToLocation_outcome in H. cbv zeta in H. cbn [snd].
  destruct r as [u | ex].
  - destruct H as (rest & Hz & _). right. eexists. exact Hz.
  - destruct H as [[_ Hz] | [(_ & done & Hz & _) | H]].
    + now left.
    + right. now exists done.
    + destruct H as (before & it & after & added & last & _ & Hz & _).
      right. eexists. exact Hz.
Qed.

(** X2: the exceptions of the archive writer.  It throws [CannotOpenFile]
    for the destination, [CannotStoreFile] for "mimetype", or, for one of
    the directory entries visited, [CannotStoreFile] with its [relpath] or
    [CannotOpenFile] with its file name; the last only for a file that
    cannot be opened. *)
Theorem archive_writer_exceptions fullfolderpath fullfilepath w ex :
  fst (SaveFolderAsEpubToLocation fullfolderpath fullfilepath w) = Throw ex ->
  ex = CannotOpenFile_at fullfilepath \/
  ex = CannotStoreFile_at "mimetype" \/
  exists it, In it (visited fullfolderpath (w_files w)) /\
             failure_at fullfolderpath (w_files w) it ex.
Proof.
  destruct (SaveFolderAsEpubToLocation fullfolderpath fullfilepath w) as [r w'] eqn:H.
  cbn [fst]. intros ->.
  apply SaveFolderAsEpubToLocation_outcome in H. cbv zeta in H.
  destruct H as [[-> _] | [[-> _] | H]]; [now left | right; now left | ].
  destruct H as (before & it & after & added & last & Hent & _ & _ & _ & Hex).
  right. right. exists it. split; [ | exact Hex].
  rewrite Hent. apply in_or_app. right. now left.
Qed.

Lemma archive_writer_exceptions_witness :
  fst (SaveFolderAsEpubToLocation "/stage" "/out.epub" unopenable_stage)
  = Throw (CannotOpenFile_at "chapter1.xhtml")
  /\ (CannotOpenFile_at "chapter1.xhtml" = CannotOpenFile_at "/out.epub" \/
      CannotOpenFile_at "chapter1.xhtml" = CannotStoreFile_at "mimetype" \/
      exists it, In it (visited "/stage" (w_files unopenable_stage)) /\
                 failure_at "/stage" (w_files unopenable_stage) it
                            (CannotOpenFile_at "chapter1.xhtml")).
Proof.
  assert (Hrun : fst (SaveFolderAsEpubToLocation "/stage" "/out.epub" unopenable_stage)
                 = Throw (CannotOpenFile_at "chapter1.xhtml"))
    by (vm_compute; reflexivity).
  split; [exact Hrun | ].
  exact (archive_writer_exceptions "/stage" "/out.epub" unopenable_stage _ Hrun).
Defined.

(** X3: when the archive writer returns and no close of an entry or of
    the archive failed, the archive at the destination is closed and
    holds the entry line 130 opened followed by exactly one entry for
    each directory entry visited, in the order of the visit, each named
    by the [relpath] computed for it. *)
Theorem archive_has_one_entry_per_file fullfolderpath fullfilepath w w' :
  SaveFolderAsEpubToLocation fullfolderpath fullfilepath w = (Ok tt, w') ->
  closes_succeeded w w' ->
  exists first rest,
    w_zip w' = Some (mkZipFile fullfilepath (first :: rest) None true) /\
    ze_header first = mimetype_header /\
    List.length rest = List.length (visited fullfolderpath (w_files w)) /\
    map entry_name rest
    = map (fun it => relpath_of fullfolderpath (fst it)) (visited fullfolderpath (w_files w)).
Proof.
  intros H _. apply SaveFolderAsEpubToLocation_outcome in H. cbv zeta in H.
  destruct H as (rest & Hz & Hall).
  exists (mkZipEntry mimetype_header (c_string (w_freed w))), rest.
  split; [exact Hz | ]. split; [reflexivity | ].
  split; [symmetry; eapply Forall2_length; exact Hall | ].
  eapply archived_as_names; exact Hall.
Qed.

Lemma archive_has_one_entry_per_file_witness :
  SaveFolderAsEpubToLocation "/t" "/out.epub" nested_stage
  = (Ok tt, snd (SaveFolderAsEpubToLocation "/t" "/out.epub" nested_stage))
  /\ closes_succeeded nested_stage
       (snd (SaveFolderAsEpubToLocation "/t" "/out.epub" nested_stage))
  /\ exists first rest,
       w_zip (snd (SaveFolderAsEpubToLocation "/t" "/out.epub" nested_stage))
       = Some (mkZipFile "/out.epub" (first :: rest) None true) /\
       ze_header first = mimetype_header /\
       List.length rest = List.length (visited "/t" (w_files nested_stage)) /\
       map entry_name rest
       = map (fun it => relpath_of "/t" (fst it)) (visited "/t" (w_files nested_stage)).
Proof.
  assert (Hrun : SaveFolderAsEpubToLocation "/t" "/out.epub" nested_stage
                 = (Ok tt, snd (SaveFolderAsEpubToLocation "/t" "/out.epub" nested_stage)))
    by (vm_compute; reflexivity).
  assert (Hcloses : closes_succeeded nested_stage
                      (snd (SaveFolderAsEpubToLocation "/t" "/out.epub" nested_stage))).
  { exists (w_trace (snd (SaveFolderAsEpubToLocation "/t" "/out.epub" nested_stage))).
    split; vm_compute; reflexivity. }
  split; [exact Hrun | ]. split; [exact Hcloses | ].
  exact (archive_has_one_entry_per_file "/t" "/out.epub" nested_stage _ Hrun Hcloses).
Defined.



(** X5: when the archive writer throws, nothing after the failing
    directory entry is archived.  Either the archive could not be
    created or its mimetype entry could not be written, and no file was
    archived; or the exception is the failure of one directory entry
    visited, and the names of the entries after the first are those of
    the directory entries visited before it, followed at most by its
    own. *)
Theorem nothing_archived_after_a_failure fullfolderpath fullfilepath w ex w' :
  SaveFolderAsEpubToLocation fullfolderpath fullfilepath w = (Throw ex, w') ->
  let relpath := fun it : string * FileNode => relpath_of fullfolderpath (fst it) in
  ((ex = CannotOpenFile_at fullfilepath \/ ex = CannotStoreFile_at "mimetype") /\
   later_entries w' = [])
  \/
  (exists before it after,
     visited fullfolderpath (w_files w) = (before ++ it :: after)%list /\
     failure_at fullfolderpath (w_files w) it ex /\
     (map entry_name (later_entries w') = map relpath before \/
      map entry_name (later_entries w') = map relpath (before ++ [it])%list)).
Proof.
  intros H. cbv zeta. apply SaveFolderAsEpubToLocation_outcome in H. cbv zeta in H.
  unfold later_entries.
  destruct H as [[-> Hz] | [(-> & done & Hz & Hdone) | H]].
  - left. split; [now left | ]. now rewrite Hz.
  - left. split; [now right | ]. rewrite Hz. zip_norm. now destruct Hdone as [-> | ->].
  - right. destruct H as (before & it & after & added & last & Hent & Hz & Hall & Hlast & Hex).
    exists before, it, after. split; [exact Hent | ]. split; [exact Hex | ].
    rewrite Hz. zip_norm. cbn [tl].
    apply archived_as_names in Hall. rewrite !map_app, Hall.
    destruct Hlast as [-> | [data ->]]; [left | right].
    + now rewrite app_nil_r.
    + reflexivity.
Qed.

Lemma nothing_archived_after_a_failure_witness :
  SaveFolderAsEpubToLocation "/stage" "/out.epub" failing_second_file
  = (Throw (CannotStoreFile_at "Text/chapter1.xhtml"),
     snd (SaveFolderAsEpubToLocation "/stage" "/out.epub" failing_second_file))
  /\ map entry_name
         (later_entries (snd (SaveFolderAsEpubToLocation "/stage" "/out.epub"
                                                         failing_second_file)))
     = ["content.opf"; "Text/chapter1.xhtml"]
  /\ (((CannotStoreFile_at "Text/chapter1.xhtml" = CannotOpenFile_at "/out.epub" \/
        CannotStoreFile_at "Text/chapter1.xhtml" = CannotStoreFile_at "mimetype") /\
       later_entries (snd (SaveFolderAsEpubToLocation "/stage" "/out.epub"
                                                      failing_second_file)) = [])
      \/
      (exists before it after,
         visited "/stage" (w_files failing_second_file) = (before ++ it :: after)%list /\
         failure_at "/stage" (w_files failing_second_file) it
                    (CannotStoreFile_at "Text/chapter1.xhtml") /\
         (map entry_name
              (later_entries (snd (SaveFolderAsEpubToLocation "/stage" "/out.epub"
                                                              failing_second_file)))
          = map (fun it => relpath_of "/stage" (fst it)) before \/
          map entry_name
              (later_entries (snd (SaveFolderAsEpubToLocation "/stage" "/out.epub"
                                                              failing_second_file)))
          = map (fun it => relpath_of "/stage" (fst it)) (before ++ [it])%list))).
Proof.
  assert (Hrun : SaveFolderAsEpubToLocation "/stage" "/out.epub" failing_second_file
                 = (Throw (CannotStoreFile_at "Text/chapter1.xhtml"),
                    snd (SaveFolderAsEpubToLocation "/stage" "/out.epub" failing_second_file)))
    by (vm_compute; reflexivity).
  split; [exact Hrun | ]. split; [vm_compute; reflexivity | ].
  exact (nothing_archived_after_a_failure "/stage" "/out.epub" failing_second_file _ _ Hrun).
Defined.

Lemma strip_leading_slashes_done s :
  QString.startsWith (strip_leading_slashes s) "/" = false.
Proof.
  unfold QString.startsWith. induction s as [ | c rest IH]; [reflexivity | ].
  cbn [strip_leading_slashes].
  destruct (Ascii.eqb_spec c "/") as [-> | Hne]; [exact IH | ].
  cbn [String.prefix]. destruct (ascii_dec "/" c) as [<- | _]; [now elim Hne | reflexivity].
Qed.

(** X6: in every run of the archive writer, returning or throwing, no
    entry after the mimetype entry has a name that starts with a
    slash. *)
Theorem entry_names_have_no_leading_slash fullfolderpath fullfilepath w :
  Forall (fun e => QString.startsWith (entry_name e) "/" = false)
         (later_entries (snd (SaveFolderAsEpubToLocation fullfolderpath fullfilepath w))).
Proof.
  assert (Harch : forall fs entries es,
             Forall2 (archived_as fullfolderpath fs) entries es ->
             Forall (fun e => QString.startsWith (entry_name e) "/" = false) es).
  { induction 1 as [ | it e entries es (He & _) _ IH]; constructor; [ | exact IH].
    unfold entry_name. rewrite He. apply strip_leading_slashes_done. }
  destruct (SaveFolderAsEpubToLocation fullfolderpath fullfilepath w) as [r w'] eqn:H.
  apply SaveFolderAsEpubToLocation_outcome in H. cbv zeta in H. cbn [snd].
  unfold later_entries. destruct r as [u | ex].
  - destruct H as (rest & -> & Hall). zip_norm. cbn [tl]. eapply Harch; exact Hall.
  - destruct H as [[_ ->] | [(_ & done & -> & Hdone) | H]].
    + constructor.
    + zip_norm. destruct Hdone as [-> | ->]; constructor.
    + destruct H as (before & it & after & added & last & _ & -> & Hall & Hlast & _).
      zip_norm. cbn [tl]. apply Forall_app. split; [eapply Harch; exact Hall | ].
      destruct Hlast as [-> | [data ->]]; repeat constructor.
      unfold entry_name. cbn [ze_header file_header eh_filename].
      apply strip_leading_slashes_done.
Qed.

(** The steps line 171 to 174 take after a failed write end in a throw. *)
Lemma abandon_entry_throws relpath w (read : Z) w' :
  (QFile_close ;;; zipCloseFileInZip ;;; zipClose ;;;
   boost_throw (CannotStoreFile_at relpath)) w <> (Ok read, w').
Proof.
  intros H.
  run_bind H u1 w1 E1; [ | discriminate].
  run_bind H u2 w2 E2; [ | discriminate].
  run_bind H u3 w3 E3; [ | discriminate].
  apply boost_throw_inv in H as [H _]. discriminate H.
Qed.

(** X8: the copy loop never reports a read error.  Whatever the reads of
    the file give, when the loop ends without a failed write the unsigned
    [read] is 0, so the test [read < 0] of line 179 is false. *)
Theorem copy_loop_ends_with_read_zero relpath reads :
  forall buff w read w',
    write_file_data relpath reads buff w = (Ok read, w') ->
    read = 0 /\ (read <? 0) = false.
Proof.
  induction reads as [ | rr reads' IH]; intros buff w read w' H;
    cbn [write_file_data] in H.
  - run_bind H n w1 E; [ | discriminate].
    unfold QFile_read_at_end in E. injection E as <- _.
    apply ret_inv in H as [H _]. injection H as ->. now split.
  - run_bind H nb w1 E; [ | discriminate]. clear E. cbv zeta in H.
    destruct (to_uint32 (fst nb) >? 0) eqn:Hpos.
    + run_bind H rc w2 E2; [ | discriminate].
      destruct (rc =? Z_OK); cbn [negb] in H.
      * now apply IH in H.
      * now apply abandon_entry_throws in H.
    + apply ret_inv in H as [H _]. injection H as ->.
      pose proof (to_uint32_nonneg (fst nb)). rewrite Z.gtb_ltb in Hpos.
      apply Z.ltb_ge in Hpos.
      assert (to_uint32 (fst nb) = 0) as -> by lia. now split.
Qed.

Lemma copy_loop_ends_with_read_zero_witness :
  fst (write_file_data "a.txt" [ReadError] zeroed_buffer entry_under_way) = Ok 0
  /\ (0 = 0 /\ (0 <? 0) = false).
Proof.
  assert (Hrun : write_file_data "a.txt" [ReadError] zeroed_buffer entry_under_way
                 = (Ok 0, snd (write_file_data "a.txt" [ReadError] zeroed_buffer
                                               entry_under_way)))
    by (vm_compute; reflexivity).
  split; [now rewrite Hrun | ].
  exact (copy_loop_ends_with_read_zero "a.txt" [ReadError] zeroed_buffer entry_under_way
                                       0 _ Hrun).
Defined.

(** ** The archive writer when no library call fails *)

Section Calm.

Lemma next_rc_calm w : calm w -> next_rc w = (Z_OK, w).
Proof. unfold calm, next_rc. now intros ->. Qed.

Lemma zipOpen64_calm path w r w' :
  calm w -> zipOpen64 path w = (r, w') -> r = Ok true /\ calm w'.
Proof.
  intros Hc. unfold zipOpen64. rewrite (next_rc_calm _ Hc). cbn [Z.eqb Z_OK].
  intros H. injection H as <- <-. now split.
Qed.

Lemma zipOpenNewFileInZip4_64_calm name sl sg me le ra wb ml st vm fb z64 w rc w' zf :
  calm w -> w_zip w = Some zf ->
  zipOpenNewFileInZip4_64 name sl sg me le ra wb ml st vm fb z64 w = (Ok rc, w') ->
  rc = Z_OK /\ calm w'.
Proof.
  intros Hc Hz. unfold zipOpenNewFileInZip4_64. rewrite (next_rc_calm _ Hc), Hz.
  cbn [Z.eqb Z_OK]. intros H. injection H as <- <-. now split.
Qed.

Lemma zipWriteInFileInZip_calm buf len w rc w' p d e c :
  calm w -> w_zip w = Some (mkZipFile p d (Some e) c) ->
  zipWriteInFileInZip buf len w = (Ok rc, w') ->
  rc = Z_OK /\ calm w'.
Proof.
  intros Hc Hz. unfold zipWriteInFileInZip. rewrite (next_rc_calm _ Hc), Hz.
  cbn [Z.eqb Z_OK]. intros H. injection H as <- <-. now split.
Qed.

Lemma zipCloseFileInZip_calm w rc w' p d e c :
  calm w -> w_zip w = Some (mkZipFile p d (Some e) c) ->
  zipCloseFileInZip w = (Ok rc, w') ->
  rc = Z_OK /\ calm w'.
Proof.
  intros Hc Hz. unfold zipCloseFileInZip. rewrite (next_rc_calm _ Hc), Hz.
  intros H. injection H as <- <-. now split.
Qed.

Lemma zipClose_calm w r w' : calm w -> zipClose w = (r, w') -> calm w'.
Proof.
  intros Hc. unfold zipClose. rewrite (next_rc_calm _ Hc).
  destruct (w_zip w); intros H; injection H as _ <-; exact Hc.
Qed.

Lemma QFile_open_calm path w r w' : calm w -> QFile_open path w = (r, w') -> calm w'.
Proof.
  intros Hc. unfold QFile_open.
  destruct (lookup_file path (w_files w)) as [n | ]; [destruct (fn_openable n) | ];
    intros H; injection H as _ <-; exact Hc.
Qed.

Lemma QFile_read_calm rr buff maxSize w r w' :
  calm w -> QFile_read rr buff maxSize w = (r, w') -> calm w'.
Proof.
  intros Hc. unfold QFile_read. destruct rr; intros H; injection H as _ <-; exact Hc.
Qed.

Lemma QFile_close_calm w r w' : calm w -> QFile_close w = (r, w') -> calm w'.
Proof. intros Hc. unfold QFile_close. intros H; injection H as _ <-; exact Hc. Qed.

Lemma write_file_data_calm relpath reads :
  forall buff w r w' p d e c,
    calm w -> w_zip w = Some (mkZipFile p d (Some e) c) ->
    write_file_data relpath reads buff w = (r, w') ->
    calm w' /\ exists read, r = Ok read.
Proof.
  induction reads as [ | rr reads' IH]; intros buff w r w' p d e c Hc Hz H;
    cbn [write_file_data] in H.
  - run_bind H n w1 E; [ | unfold QFile_read_at_end in E; discriminate].
    unfold QFile_read_at_end in E. injection E as _ <-.
    apply ret_inv in H as [-> ->]. split; [exact Hc | eauto].
  - run_bind H nb w1 E;
      [ | apply QFile_read_inv in E as (_ & _ & ? & ?); discriminate].
    pose proof (QFile_read_calm _ _ _ _ _ _ Hc E) as Hc1.
    apply QFile_read_inv in E as (_ & Hz1 & _). rewrite Hz in Hz1. cbv zeta in H.
    destruct (to_uint32 (fst nb) >? 0).
    + run_bind H rc w2 E2;
        [ | apply (zipWriteInFileInZip_inv _ _ _ _ _ _ _ _ _ Hz1) in E2
              as (_ & ? & ? & _); discriminate].
      destruct (zipWriteInFileInZip_calm _ _ _ _ _ _ _ _ _ Hc1 Hz1 E2) as [-> Hc2].
      apply (zipWriteInFileInZip_inv _ _ _ _ _ _ _ _ _ Hz1) in E2
        as (_ & rc' & Hr & [[_ Hz2] | [Hrc _]]); [ | injection Hr as <-; discriminate Hrc].
      cbn [Z.eqb Z_OK negb] in H. exact (IH _ _ _ _ _ _ _ _ Hc2 Hz2 H).
    + apply ret_inv in H as [-> ->]. split; [exact Hc1 | eauto].
Qed.

Variable fullfolderpath : string.

Lemma add_file_entry_calm it w r w' p d c :
  calm w -> w_zip w = Some (mkZipFile p d None c) ->
  openable_file (w_files w) (fst it) ->
  add_file_entry fullfolderpath it w = (r, w') ->
  r = Ok tt /\ calm w'.
Proof.
  intros Hc Hz Hopen H. unfold add_file_entry in H. cbv zeta in H.
  run_bind H rc w1 E;
    [ | apply (zipOpenNewFileInZip4_64_inv _ _ _ _ _ _ _ _ _ _ _ _ _ _ _ _ Hz) in E
          as (_ & ? & ? & _); discriminate].
  destruct (zipOpenNewFileInZip4_64_calm _ _ _ _ _ _ _ _ _ _ _ _ _ _ _ _ Hc Hz E) as [-> Hc1].
  apply (zipOpenNewFileInZip4_64_inv _ _ _ _ _ _ _ _ _ _ _ _ _ _ _ _ Hz) in E
    as (Hf1 & rc' & Hr & [[_ Hz1] | [Hrc _]]); [ | injection Hr as <-; discriminate Hrc].
  unfold open_entry, zip_entries in Hz1. cbn in Hz1. rewrite app_nil_r in Hz1.
  cbn [Z.eqb Z_OK negb] in H.
  run_bind H dfile w2 E2; [ | apply QFile_open_inv in E2 as (_ & _ & ? & ?); discriminate].
  pose proof (QFile_open_calm _ _ _ _ Hc1 E2) as Hc2.
  pose proof (QFile_open_inv _ _ _ _ E2) as (Hf2 & Hz2 & _). rewrite Hz1 in Hz2.
  destruct dfile as [reads | ];
    [ | apply QFile_open_failed in E2; rewrite Hf1 in E2; contradiction].
  apply bind_inv in H. destruct H as [(read & w3 & E3 & H) | (ex & E3 & ->)];
    pose proof (write_file_data_calm _ _ _ _ _ _ _ _ _ _ Hc2 Hz2 E3) as [Hc3 [read' Hr3]];
    [ | discriminate].
  apply (write_file_data_inv _ _ _ _ _ _ _ _ _ _ Hz2) in E3 as (_ & -> & e' & _ & Hz3).
  run_bind H u w4 E4; [ | unfold QFile_close in E4; discriminate].
  pose proof (QFile_close_calm _ _ _ Hc3 E4) as Hc4.
  apply QFile_close_inv in E4 as (_ & Hz4 & _). rewrite Hz3 in Hz4.
  cbn [Z.ltb Z.compare] in H.
  run_bind H rc5 w5 E5;
    [ | apply (zipCloseFileInZip_inv _ _ _ _ _ _ _ Hz4) in E5 as (_ & ? & ? & _); discriminate].
  destruct (zipCloseFileInZip_calm _ _ _ _ _ _ _ Hc4 Hz4 E5) as [-> Hc5].
  cbn [Z.eqb Z_OK negb] in H. apply ret_inv in H as [-> ->]. now split.
Qed.

Lemma add_file_entries_calm entries :
  forall w r w' p d c,
    calm w -> w_zip w = Some (mkZipFile p d None c) ->
    (forall it, In it entries -> openable_file (w_files w) (fst it)) ->
    add_file_entries fullfolderpath entries w = (r, w') ->
    r = Ok tt /\ calm w'.
Proof.
  induction entries as [ | it entries' IH]; intros w r w' p d c Hc Hz Hopen H;
    cbn [add_file_entries] in H.
  - apply ret_inv in H as [-> ->]. now split.
  - apply bind_inv in H. destruct H as [(u & w1 & E & H) | (ex & E & ->)];
      destruct (add_file_entry_calm _ _ _ _ _ _ _ Hc Hz (Hopen it (or_introl eq_refl)) E)
        as [Hr Hc1]; [ | discriminate].
    apply (add_file_entry_inv _ _ _ _ _ _ _ _ Hz) in E as [Hf1 [data Hz1]].
    apply (IH _ _ _ _ _ _ Hc1 Hz1); [ | exact H].
    intros it' Hin. rewrite Hf1. apply Hopen. now right.
Qed.

End Calm.

(** X9: the archive writer succeeds whenever nothing around it fails:
    when no minizip call returns an error, line 135 still finds the MIME
    type string at [mime_data], and every directory entry visited can be
    opened and is read without error, in chunks that fit the buffer, the
    writer returns normally. *)
Theorem archive_writer_succeeds fullfolderpath fullfilepath w :
  w_zip_rcs w = [] ->
  mime_data_intact w ->
  (forall it, In it (visited fullfolderpath (w_files w)) ->
              well_read_file (w_files w) (fst it)) ->
  fst (SaveFolderAsEpubToLocation fullfolderpath fullfilepath w) = Ok tt.
Proof.
  intros Hc _ Hwell.
  assert (Hopen : forall it, In it (visited fullfolderpath (w_files w)) ->
                             openable_file (w_files w) (fst it)).
  { intros it Hin. destruct (Hwell it Hin) as (n & Hl & Ho & _). now exists n. }
  destruct (SaveFolderAsEpubToLocation fullfolderpath fullfilepath w) as [r w'] eqn:H.
  cbn [fst]. unfold SaveFolderAsEpubToLocation in H.
  run_bind H zfile w1 E1; [ | apply zipOpen64_calm in E1 as [? _]; [discriminate | exact Hc]].
  destruct (zipOpen64_calm _ _ _ _ Hc E1) as [Hr0 Hc1]. injection Hr0 as ->.
  apply zipOpen64_inv in E1 as (Hf1 & [[_ Hz1] | [Hr1 _]]); [ | discriminate Hr1].
  cbn [negb] in H. unfold zipOpenNewFileInZip64 in H.
  run_bind H rc w2 E2;
    [ | apply (zipOpenNewFileInZip4_64_inv _ _ _ _ _ _ _ _ _ _ _ _ _ _ _ _ Hz1) in E2
          as (_ & ? & ? & _); discriminate].
  destruct (zipOpenNewFileInZip4_64_calm _ _ _ _ _ _ _ _ _ _ _ _ _ _ _ _ Hc1 Hz1 E2)
    as [-> Hc2].
  apply (zipOpenNewFileInZip4_64_inv _ _ _ _ _ _ _ _ _ _ _ _ _ _ _ _ Hz1) in E2
    as (Hf2 & rc' & Hr2 & [[_ Hz2] | [Hrc2 _]]); [ | injection Hr2 as <-; discriminate Hrc2].
  unfold open_entry, zip_entries in Hz2.
  cbn [zf_path zf_done zf_cur zf_closed option_list app] in Hz2.
  cbn [Z.eqb Z_OK negb] in H.
  run_bind H mime_data wm Em;
    apply constData_of_temporary_inv in Em as [Hrm ->]; [ | discriminate].
  run_bind H rc3 w3 E3;
    [ | apply (zipWriteInFileInZip_inv _ _ _ _ _ _ _ _ _ Hz2) in E3
          as (_ & ? & ? & _); discriminate].
  destruct (zipWriteInFileInZip_calm _ _ _ _ _ _ _ _ _ Hc2 Hz2 E3) as [-> Hc3].
  apply (zipWriteInFileInZip_inv _ _ _ _ _ _ _ _ _ Hz2) in E3
    as (Hf3 & rc3' & Hr3 & [[_ Hz3] | [Hrc3 _]]); [ | injection Hr3 as <-; discriminate Hrc3].
  cbn [Z.eqb Z_OK negb] in H.
  run_bind H rc4 w4 E4;
    [ | apply (zipCloseFileInZip_inv _ _ _ _ _ _ _ Hz3) in E4 as (_ & ? & ? & _); discriminate].
  destruct (zipCloseFileInZip_calm _ _ _ _ _ _ _ Hc3 Hz3 E4) as [_ Hc4].
  apply (zipCloseFileInZip_inv _ _ _ _ _ _ _ Hz3) in E4 as (Hf4 & _ & _ & Hz4).
  run_bind H entries w5 E5; [ | discriminate].
  unfold QDirIterator in E5. injection E5 as <- <-.
  fold (visited fullfolderpath (w_files w4)) in H.
  assert (Hfs : w_files w4 = w_files w) by congruence. rewrite Hfs in H.
  apply bind_inv in H. destruct H as [(u6 & w6 & E6 & H) | (ex & E6 & ->)];
    (assert (Hopen4 : forall it, In it (visited fullfolderpath (w_files w)) ->
                                 openable_file (w_files w4) (fst it))
       by (intros it Hin; rewrite Hfs; now apply Hopen));
    destruct (add_file_entries_calm fullfolderpath _ _ _ _ _ _ _ Hc4 Hz4 Hopen4 E6)
      as [Hr6 Hc6]; [ | discriminate].
  apply (add_file_entries_inv _ _ _ _ _ _ _ _ Hz4) in E6 as (_ & added & c' & Hz6 & _).
  run_bind H u7 w7 E7;
    [ | apply (zipClose_inv _ _ _ _ Hz6) in E7 as (_ & ? & ? & _); discriminate].
  apply ret_inv in H as [-> _]. reflexivity.
Qed.

Lemma archive_writer_succeeds_witness :
  w_zip_rcs two_files_stage = []
  /\ mime_data_intact two_files_stage
  /\ (forall it, In it (visited "/stage" (w_files two_files_stage)) ->
                 well_read_file (w_files two_files_stage) (fst it))
  /\ fst (SaveFolderAsEpubToLocation "/stage" "/out.epub" two_files_stage) = Ok tt.
Proof.
  assert (Hintact : mime_data_intact two_files_stage) by (vm_compute; reflexivity).
  assert (Hwell : forall it, In it (visited "/stage" (w_files two_files_stage)) ->
                             well_read_file (w_files two_files_stage) (fst it)).
  { intros it [<- | [<- | []]];
      (eexists; split; [reflexivity | ]; split; [reflexivity | ]);
      repeat constructor; try discriminate; vm_compute; discriminate. }
  split; [reflexivity | ]. split; [exact Hintact | ]. split; [exact Hwell | ].
  exact (archive_writer_succeeds "/stage" "/out.epub" two_files_stage eq_refl Hintact Hwell).
Defined.

(** X10: when the archive cannot be created the writer throws
    [CannotOpenFile] for the destination at once: the handle is NULL and
    [zipOpen64] is the only call made, no staged file is opened. *)
Theorem archive_not_created fullfolderpath fullfilepath w rc rcs :
  w_zip_rcs w = rc :: rcs ->
  rc <> Z_OK ->
  let run := SaveFolderAsEpubToLocation fullfolderpath fullfilepath w in
  fst run = Throw (CannotOpenFile_at fullfilepath) /\
  w_zip (snd run) = None /\
  calls (snd run) = (calls w ++ [Ev_zipOpen64 fullfilepath false])%list.
Proof.
  intros Hrcs Hrc. cbv zeta.
  unfold SaveFolderAsEpubToLocation, bind, zipOpen64, next_rc, toNativeSeparators.
  rewrite Hrcs. apply Z.eqb_neq in Hrc. rewrite Hrc. cbn [negb].
  unfold boost_throw. cbn [fst snd]. repeat split.
Qed.

Lemma archive_not_created_witness :
  w_zip_rcs unwritable_destination = [-1]
  /\ -1 <> Z_OK
  /\ fst (SaveFolderAsEpubToLocation "/stage" "/out.epub" unwritable_destination)
     = Throw (CannotOpenFile_at "/out.epub")
  /\ w_zip (snd (SaveFolderAsEpubToLocation "/stage" "/out.epub" unwritable_destination))
     = None
  /\ calls (snd (SaveFolderAsEpubToLocation "/stage" "/out.epub" unwritable_destination))
     = (calls unwritable_destination ++ [Ev_zipOpen64 "/out.epub" false])%list.
Proof.
  assert (Hrcs : w_zip_rcs unwritable_destination = [-1]) by reflexivity.
  assert (Hrc : -1 <> Z_OK) by discriminate.
  split; [exact Hrcs | ]. split; [exact Hrc | ].
  exact (archive_not_created "/stage" "/out.epub" unwritable_destination _ _ Hrcs Hrc).
Defined.

(** ** Further properties of the font pass *)

Section FontPassMore.

Context {Book : Type} {BM : BookModel Book}.

(** X11: a book none of whose fonts carries an obfuscation algorithm is
    left alone by [ObfuscateFonts]: it returns normally, calls nothing
    and changes nothing. *)
Theorem ObfuscateFonts_without_algorithms (book : Book) fullfolderpath w :
  (forall font_resource, In font_resource (GetFontResources book) ->
                         tagged font_resource = false) ->
  ObfuscateFonts book fullfolderpath w = (Ok tt, w).
Proof.
  unfold ObfuscateFonts. cbv zeta.
  induction (GetFontResources book) as [ | fr rest IH]; intros Hall; [reflexivity | ].
  cbn [foreach]. unfold bind at 1. unfold obfuscate_font at 1. cbv zeta.
  pose proof (Hall fr (or_introl eq_refl)) as Hfr. unfold tagged in Hfr.
  apply negb_false_iff in Hfr. rewrite Hfr. unfold ret at 1.
  apply IH. intros fr' Hin. apply Hall. now right.
Qed.

End FontPassMore.

Lemma ObfuscateFonts_without_algorithms_witness :
  (forall font_resource, In font_resource (GetFontResources untagged_font_book) ->
                         tagged font_resource = false)
  /\ ObfuscateFonts untagged_font_book "/stage" odd_font_stage = (Ok tt, odd_font_stage).
Proof.
  assert (Hall : forall font_resource,
             In font_resource (GetFontResources untagged_font_book) ->
             tagged font_resource = false).
  { intros fr [<- | []]. reflexivity. }
  split; [exact Hall | ].
  exact (ObfuscateFonts_without_algorithms untagged_font_book "/stage" odd_font_stage Hall).
Defined.

(** ** Further properties of the encryption manifest *)

Section FilesFacts.

Lemma lookup_file_app path (a b : Files) :
  lookup_file path (a ++ b)%list =
  match lookup_file path a with Some n => Some n | None => lookup_file path b end.
Proof.
  induction a as [ | [p n] a IH]; cbn [app lookup_file]; [reflexivity | ].
  destruct (String.eqb p path); [reflexivity | exact IH].
Qed.

Lemma lookup_file_remove_file path gone fs :
  lookup_file path (remove_file gone fs) =
  if String.eqb path gone then None else lookup_file path fs.
Proof.
  unfold remove_file. induction fs as [ | [p n] fs IH]; cbn [filter lookup_file fst].
  - now destruct (String.eqb path gone).
  - destruct (String.eqb_spec p gone) as [-> | Hpg]; cbn [negb lookup_file].
    + rewrite IH. rewrite (String.eqb_sym gone path).
      now destruct (String.eqb path gone).
    + destruct (String.eqb_spec p path) as [-> | Hpp].
      * destruct (String.eqb_spec path gone) as [-> | _]; [now elim Hpg | reflexivity].
      * exact IH.
Qed.

Lemma write_content_absent path bytes fs :
  lookup_file path fs = None -> write_content path bytes fs = fs.
Proof.
  unfold write_content. induction fs as [ | [p n] fs IH]; cbn [map lookup_file fst];
    [reflexivity | ].
  destruct (String.eqb p path); [discriminate | ]. intros H. now rewrite (IH H).
Qed.

Lemma lookup_write_content path bytes fs n :
  lookup_file path (write_content path bytes fs) = Some n ->
  n = mkFileNode RegularFile true false true (reads_of_content bytes).
Proof.
  unfold write_content. induction fs as [ | [p m] fs IH]; cbn [map lookup_file fst];
    [discriminate | ].
  destruct (String.eqb p path) eqn:Hp; cbn [lookup_file]; rewrite Hp.
  - intros H. now injection H as <-.
  - exact IH.
Qed.

Lemma delivered_chunks size bytes :
  forall fuel, (0 < size)%nat -> (List.length bytes <= fuel)%nat ->
               delivered (chunks_of fuel size bytes) = bytes.
Proof.
  remember (List.length bytes) as len eqn:Hlen.
  revert bytes Hlen. induction len as [len IH] using lt_wf_ind.
  intros bytes Hlen fuel Hsize Hfuel.
  destruct fuel as [ | fuel]; destruct bytes as [ | b bytes]; cbn [List.length] in *;
    try reflexivity; [lia | ].
  cbn [chunks_of delivered].
  rewrite (IH (List.length (skipn size (b :: bytes)))); try reflexivity; try exact Hsize.
  - apply firstn_skipn.
  - subst len. rewrite length_skipn. cbn [List.length]. lia.
  - rewrite length_skipn. cbn [List.length]. lia.
Qed.

(** Writing a content and reading it back, chunk by chunk, gives the
    content. *)
Lemma delivered_reads_of_content bytes :
  delivered (reads_of_content bytes) = bytes.
Proof.
  unfold reads_of_content. apply delivered_chunks; [ | lia].
  unfold BUFF_SIZE. apply Nat2Z.inj_lt. rewrite Z2Nat.id; lia.
Qed.

End FilesFacts.

Section ManifestMore.

Context {Book : Type} {BM : BookModel Book}.

(** X12: when the temporary file cannot be opened, [CreateEncryptionXML]
    throws [CannotOpenFile] with an empty path and the error string of
    the file; nothing is copied, no call is made. *)
Theorem manifest_without_temporary_file (book : Book) fullfolderpath w msg :
  w_tmpfile_error w = Some msg ->
  let run := CreateEncryptionXML book fullfolderpath w in
  fst run = Throw (mkException CannotOpenFile EmptyString (Some msg)) /\
  calls (snd run) = calls w /\
  w_files (snd run) = remove_file (next_temporary_file w) (w_files w).
Proof.
  intros Herr. cbv zeta.
  unfold CreateEncryptionXML, scoped, QTemporaryFile.ctor.
  match goal with
  | |- context [let (_, _) := ?body ?w1 in _] =>
      assert (E : body w1
                  = (Throw (mkException CannotOpenFile EmptyString (Some msg)), w1))
  end.
  { unfold bind, QTemporaryFile.open, QTemporaryFile.errorString, boost_throw.
    cbn [w_tmpfile_error set_temp]. rewrite Herr.
    cbn [negb w_tmpfile_error set_temp]. rewrite Herr. reflexivity. }
  rewrite E. cbn [fst snd]. repeat split.
Qed.

(** X13: when the copy of line 213 succeeds, [CreateEncryptionXML]
    returns normally and the file encryption.xml in the given folder
    holds exactly the bytes the manifest writer produced for the book. *)
Theorem manifest_is_materialized (book : Book) fullfolderpath w :
  let run := CreateEncryptionXML book fullfolderpath w in
  w_trace (snd run)
  = Ev_QFile_copy (next_temporary_file w) (manifest_path fullfolderpath) true
    :: w_trace w ->
  fst run = Ok tt /\
  (exists n, lookup_file (manifest_path fullfolderpath) (w_files (snd run)) = Some n) /\
  content_at (w_files (snd run)) (manifest_path fullfolderpath)
  = EncryptionXmlWriter_WriteXML book.
Proof.
  cbv zeta. unfold CreateEncryptionXML, scoped, QTemporaryFile.ctor.
  fold (next_temporary_file w). fold (manifest_path fullfolderpath).
  set (tmp := next_temporary_file w) in *. set (dst := manifest_path fullfolderpath) in *.
  set (bytes := EncryptionXmlWriter_WriteXML book).
  set (w1 := set_temp (w_tempdirs w) (S (w_next_temp w)) w).
  match goal with
  | |- context [let (_, _) := ?body in _] => destruct body as [res w2] eqn:E
  end.
  cbn [fst snd]. unfold QTemporaryFile.dtor at 1. cbn [w_trace set_files]. intros Ht.
  run_bind E opened wa Ea; [ | unfold QTemporaryFile.open in Ea;
                               destruct (w_tmpfile_error w1); discriminate].
  unfold QTemporaryFile.open in Ea.
  destruct (w_tmpfile_error w1) as [msg | ]; injection Ea as <- <-; cbn [negb] in E.
  { (* no temporary file: nothing is copied *)
    run_bind E u1 wb Eb.
    - run_bind Eb msg' wc Ec; [ | discriminate]. apply boost_throw_inv in Eb as [Eb _].
      discriminate Eb.
    - run_bind Eb msg' wc Ec; [ | discriminate].
      unfold QTemporaryFile.errorString in Ec. injection Ec as _ <-.
      apply boost_throw_inv in Eb as [_ ->].
      exfalso. apply (f_equal (@List.length Event)) in Ht.
      cbn [w_trace set_temp List.length w1] in Ht. subst w1. cbn in Ht. lia. }
  run_bind E u1 wb Eb; [ | discriminate]. apply ret_inv in Eb as [_ ->].
  run_bind E u2 wc Ec; [ | discriminate].
  unfold QTemporaryFile.write in Ec. injection Ec as _ <-.
  run_bind E copied wd Ed;
    apply QFile_copy_inv in Ed as (copied' & Hr & Htrace & Hcopy); [ | discriminate].
  injection Hr as <-. apply ret_inv in E as [-> ->].
  rewrite Htrace in Ht. injection Ht as ->.
  destruct Hcopy as (n & Hsrc & Hdst & _ & Hfiles).
  assert (Hn : n = mkFileNode RegularFile true false true (reads_of_content bytes))
    by exact (lookup_write_content _ _ _ _ Hsrc).
  assert (Hne : String.eqb dst tmp = false).
  { apply String.eqb_neq. intros Heq. rewrite Heq in Hdst. congruence. }
  unfold QTemporaryFile.dtor, content_at. cbn [w_files set_files].
  rewrite lookup_file_remove_file, Hne, Hfiles, lookup_file_app, Hdst.
  cbn [lookup_file]. rewrite String.eqb_refl.
  split; [reflexivity | ]. split; [now exists n | ].
  rewrite Hn. cbn [fn_reads]. apply delivered_reads_of_content.
Qed.

(** X14: the temporary file of [CreateEncryptionXML] never outlives the
    call: on every way out, no file is left under its name. *)
Theorem temporary_file_is_removed (book : Book) fullfolderpath w :
  lookup_file (next_temporary_file w)
              (w_files (snd (CreateEncryptionXML book fullfolderpath w))) = None.
Proof.
  unfold CreateEncryptionXML, scoped, QTemporaryFile.ctor.
  fold (next_temporary_file w).
  match goal with
  | |- context [let (_, _) := ?body in _] => destruct body as [res w2]
  end.
  cbn [snd]. unfold QTemporaryFile.dtor. cbn [w_files set_files].
  rewrite lookup_file_remove_file. now rewrite String.eqb_refl.
Qed.

End ManifestMore.

Lemma manifest_without_temporary_file_witness :
  w_tmpfile_error no_temporary_file = Some "No space left on device"
  /\ fst (CreateEncryptionXML stale_manifest_book "/stage/META-INF" no_temporary_file)
     = Throw (mkException CannotOpenFile EmptyString (Some "No space left on device")).
Proof.
  split; [reflexivity | ].
  exact (proj1 (manifest_without_temporary_file stale_manifest_book "/stage/META-INF"
                  no_temporary_file "No space left on device" eq_refl)).
Defined.

Lemma manifest_is_materialized_witness :
  w_trace (snd (CreateEncryptionXML stale_manifest_book "/stage/META-INF" staged_container))
  = Ev_QFile_copy (next_temporary_file staged_container)
                  (manifest_path "/stage/META-INF") true
    :: w_trace staged_container
  /\ content_at
       (w_files (snd (CreateEncryptionXML stale_manifest_book "/stage/META-INF"
                                          staged_container)))
       "/stage/META-INF/encryption.xml"
     = QString.toUtf8 "<encryption/>".
Proof.
  assert (Hcopy :
    w_trace (snd (CreateEncryptionXML stale_manifest_book "/stage/META-INF" staged_container))
    = Ev_QFile_copy (next_temporary_file staged_container)
                    (manifest_path "/stage/META-INF") true
      :: w_trace staged_container) by (vm_compute; reflexivity).
  split; [exact Hcopy | ].
  exact (proj2 (proj2 (manifest_is_materialized stale_manifest_book "/stage/META-INF"
                         staged_container Hcopy))).
Defined.

(** ** The calls a step makes *)

Section Calls.

Variable P : Event -> Prop.

Lemma only_logs_ret {A} (a : A) : only_logs P (ret a).
Proof. intros w r w' H. apply ret_inv in H as [_ ->]. now exists []. Qed.

Lemma only_logs_throw {A} (e : Exception) : only_logs P (@boost_throw A e).
Proof. intros w r w' H. apply boost_throw_inv in H as [_ ->]. now exists []. Qed.

Lemma only_logs_bind {A B} (c : M A) (k : A -> M B) :
  only_logs P c -> (forall a, only_logs P (k a)) -> only_logs P (bind c k).
Proof.
  intros Hc Hk w r w' H. apply bind_inv in H.
  destruct H as [(a & w1 & E & H) | (e & E & _)].
  - apply Hc in E as (added1 & Ht1 & Hall1). apply Hk in H as (added2 & Ht2 & Hall2).
    exists (added2 ++ added1)%list. rewrite Ht2, Ht1, app_assoc.
    split; [reflexivity | now apply Forall_app].
  - now apply Hc in E.
Qed.

Lemma only_logs_on_files f : only_logs P (on_files f).
Proof.
  intros w r w'. unfold on_files. destruct (f (w_files w)) as [e fs].
  intros H. injection H as _ <-. now exists [].
Qed.

Lemma only_logs_scoped {R A} (ctor : M R) (dtor : R -> World -> World) (body : R -> M A) :
  only_logs P ctor -> (forall r, only_logs P (body r)) ->
  (forall r w, w_trace (dtor r w) = w_trace w) ->
  only_logs P (scoped ctor dtor body).
Proof.
  intros Hc Hb Hd w r w' H. unfold scoped in H.
  destruct (ctor w) as [[x | e] w1] eqn:E.
  - destruct (body x w1) as [res w2] eqn:Eb. injection H as _ <-.
    apply Hc in E as (added1 & Ht1 & Hall1). apply Hb in Eb as (added2 & Ht2 & Hall2).
    exists (added2 ++ added1)%list. rewrite Hd, Ht2, Ht1, app_assoc.
    split; [reflexivity | now apply Forall_app].
  - injection H as _ <-. now apply Hc in E.
Qed.

End Calls.

Section ArchiveCalls.

Variable P : Event -> Prop.
Hypothesis P_transfer : forall ev, transfer ev -> P ev.
Hypothesis P_open : forall path opened, P (Ev_QFile_open path opened).

Lemma next_rc_trace w : w_trace (snd (next_rc w)) = w_trace w.
Proof. unfold next_rc. now destruct (w_zip_rcs w). Qed.

Lemma only_logs_zipOpen64 path : only_logs P (zipOpen64 path).
Proof.
  intros w r w'. unfold zipOpen64. pose proof (next_rc_trace w) as Ht.
  destruct (next_rc w) as [rc w1]. cbn [snd] in Ht.
  destruct (rc =? Z_OK); intros H; injection H as _ <-;
    eexists [_]; (split; [cbn; now rewrite Ht | repeat constructor; now apply P_transfer]).
Qed.

Lemma only_logs_zipOpenNewFileInZip4_64 name sl sg me le ra wb ml st vm fb z64 :
  only_logs P (zipOpenNewFileInZip4_64 name sl sg me le ra wb ml st vm fb z64).
Proof.
  intros w r w'. unfold zipOpenNewFileInZip4_64. pose proof (next_rc_trace w) as Ht.
  destruct (next_rc w) as [rc w1]. cbn [snd] in Ht.
  destruct (w_zip w1); [destruct (rc =? Z_OK) | ]; intros H; injection H as _ <-;
    eexists [_]; (split; [cbn; now rewrite Ht | repeat constructor; now apply P_transfer]).
Qed.

Lemma only_logs_zipWriteInFileInZip buf len :
  only_logs P (zipWriteInFileInZip buf len).
Proof.
  intros w r w'. unfold zipWriteInFileInZip. pose proof (next_rc_trace w) as Ht.
  destruct (next_rc w) as [rc w1]. cbn [snd] in Ht.
  destruct (w_zip w1) as [[p d [e | ] c] | ]; [destruct (rc =? Z_OK) | | ];
    intros H; injection H as _ <-;
    eexists [_]; (split; [cbn; now rewrite Ht | repeat constructor; now apply P_transfer]).
Qed.

Lemma only_logs_zipCloseFileInZip : only_logs P zipCloseFileInZip.
Proof.
  intros w r w'. unfold zipCloseFileInZip. pose proof (next_rc_trace w) as Ht.
  destruct (next_rc w) as [rc w1]. cbn [snd] in Ht.
  destruct (w_zip w1) as [[p d [e | ] c] | ];
    intros H; injection H as _ <-;
    eexists [_]; (split; [cbn; now rewrite Ht | repeat constructor; now apply P_transfer]).
Qed.

Lemma only_logs_zipClose : only_logs P zipClose.
Proof.
  intros w r w'. unfold zipClose. pose proof (next_rc_trace w) as Ht.
  destruct (next_rc w) as [rc w1]. cbn [snd] in Ht.
  destruct (w_zip w1); intros H; injection H as _ <-;
    eexists [_]; (split; [cbn; now rewrite Ht | repeat constructor; now apply P_transfer]).
Qed.

Lemma only_logs_QFile_open path : only_logs P (QFile_open path).
Proof.
  intros w r w'. unfold QFile_open.
  destruct (lookup_file path (w_files w)) as [n | ]; [destruct (fn_openable n) | ];
    intros H; injection H as _ <-;
    eexists [_]; (split; [reflexivity | repeat constructor; apply P_open]).
Qed.

Lemma only_logs_QFile_read rr buff maxSize : only_logs P (QFile_read rr buff maxSize).
Proof.
  intros w r w'. unfold QFile_read.
  destruct rr; intros H; injection H as _ <-;
    eexists [_]; (split; [reflexivity | repeat constructor; now apply P_transfer]).
Qed.

Lemma only_logs_QFile_read_at_end : only_logs P QFile_read_at_end.
Proof.
  intros w r w'. unfold QFile_read_at_end. intros H; injection H as _ <-.
  eexists [_]; (split; [reflexivity | repeat constructor; now apply P_transfer]).
Qed.

Lemma only_logs_QFile_close : only_logs P QFile_close.
Proof.
  intros w r w'. unfold QFile_close. intros H; injection H as _ <-.
  eexists [_]; (split; [reflexivity | repeat constructor; now apply P_transfer]).
Qed.

Lemma only_logs_QDirIterator path filters : only_logs P (QDirIterator path filters).
Proof.
  intros w r w'. unfold QDirIterator. intros H; injection H as _ <-. now exists [].
Qed.

Lemma only_logs_constData_of_temporary bytes :
  only_logs P (constData_of_temporary bytes).
Proof.
  intros w r w'. unfold constData_of_temporary. intros H; injection H as _ <-.
  now exists [].
Qed.

(** Breaks a goal [only_logs P c] down along the binds and tests of [c],
    closing the calls with the lemmas above. *)
Ltac archive_calls :=
  repeat first
    [ apply only_logs_ret | apply only_logs_throw
    | apply only_logs_zipOpen64 | apply only_logs_zipOpenNewFileInZip4_64
    | apply only_logs_zipWriteInFileInZip | apply only_logs_zipCloseFileInZip
    | apply only_logs_zipClose | apply only_logs_QFile_open
    | apply only_logs_QFile_read | apply only_logs_QFile_read_at_end
    | apply only_logs_QFile_close | apply only_logs_QDirIterator
    | apply only_logs_constData_of_temporary
    | apply only_logs_bind; [ | intros ? ]
    | match goal with
      | |- only_logs _ (if ?b then _ else _) => destruct b
      | |- only_logs _ (match ?o with Some _ => _ | None => _ end) => destruct o
      end ].

Lemma only_logs_write_file_data relpath reads :
  forall buff, only_logs P (write_file_data relpath reads buff).
Proof.
  induction reads as [ | rr reads' IH]; intros buff; cbn [write_file_data].
  - archive_calls.
  - cbv zeta. archive_calls. apply IH.
Qed.


Lemma only_logs_add_file_entry fullfolderpath it :
  only_logs P (add_file_entry fullfolderpath it).
Proof.
  unfold add_file_entry. cbv zeta. archive_calls. apply only_logs_write_file_data.
Qed.

Lemma only_logs_add_file_entries fullfolderpath entries :
  only_logs P (add_file_entries fullfolderpath entries).
Proof.
  induction entries as [ | it entries' IH]; cbn [add_file_entries].
  - archive_calls.
  - apply only_logs_bind; [apply only_logs_add_file_entry | intros _; exact IH].
Qed.

(** The archive writer calls minizip and opens, reads and closes files;
    it makes no other call. *)
Lemma only_logs_SaveFolderAsEpubToLocation fullfolderpath fullfilepath :
  only_logs P (SaveFolderAsEpubToLocation fullfolderpath fullfilepath).
Proof.
  unfold SaveFolderAsEpubToLocation, zipOpenNewFileInZip64.
  archive_calls. apply only_logs_add_file_entries.
Qed.

End ArchiveCalls.

Lemma transfer_archive ev : transfer ev -> archive ev.
Proof. unfold transfer, archive. now destruct ev. Qed.

Lemma open_archive path opened : archive (Ev_QFile_open path opened).
Proof. reflexivity. Qed.

(** ** The files the archive writer opens *)

Section OpenedFiles.













End OpenedFiles.


(** ** Staging and the whole export *)

Section ExportMore.

Context {Book : Type} {BM : BookModel Book}.

(** Once its temporary file is open, [CreateEncryptionXML] returns
    normally after one logged call: the copy of that file to
    encryption.xml in the given folder. *)
Lemma CreateEncryptionXML_copies (book : Book) fullfolderpath w :
  w_tmpfile_error w = None ->
  fst (CreateEncryptionXML book fullfolderpath w) = Ok tt /\
  exists copied,
    w_trace (snd (CreateEncryptionXML book fullfolderpath w))
    = Ev_QFile_copy (next_temporary_file w) (manifest_path fullfolderpath) copied
      :: w_trace w.
Proof.
  intros Herr. unfold CreateEncryptionXML, scoped, QTemporaryFile.ctor.
  fold (next_temporary_file w). fold (manifest_path fullfolderpath).
  set (w1 := set_temp (w_tempdirs w) (S (w_next_temp w)) w).
  match goal with
  | |- context [let (_, _) := ?body in _] => destruct body as [res w2] eqn:E
  end.
  cbn [fst snd].
  run_bind E opened wa Ea; [ | unfold QTemporaryFile.open in Ea;
                               destruct (w_tmpfile_error w1); discriminate].
  unfold QTemporaryFile.open in Ea. subst w1. cbn [w_tmpfile_error set_temp] in Ea.
  rewrite Herr in Ea. injection Ea as <- <-. cbn [negb] in E.
  run_bind E u1 wb Eb; [ | discriminate]. apply ret_inv in Eb as [_ ->].
  run_bind E u2 wc Ec; [ | discriminate].
  unfold QTemporaryFile.write in Ec. injection Ec as _ <-.
  run_bind E copied wd Ed;
    apply QFile_copy_inv in Ed as (copied' & Hr & Htrace & _); [ | discriminate].
  apply ret_inv in E as [-> ->]. split; [reflexivity | ].
  exists copied'. exact Htrace.
Qed.

(** X15: staging a book with obfuscated fonts.  When the copy of the
    book's folder succeeds and the temporary file opens,
    [CreatePublication] returns normally and its one logged call is the
    copy of the manifest to META-INF/encryption.xml below the staged
    folder. *)
Theorem manifest_goes_to_META_INF (book : Book) fullfolderpath w :
  HasObfuscatedFonts book = true ->
  fst (Utility_CopyFiles (GetFullPathToMainFolder book) fullfolderpath (w_files w)) = None ->
  w_tmpfile_error w = None ->
  fst (CreatePublication book fullfolderpath w) = Ok tt /\
  exists copied,
    calls (snd (CreatePublication book fullfolderpath w))
    = (calls w ++ [Ev_QFile_copy (next_temporary_file w)
                                 (fullfolderpath ++ "/META-INF/encryption.xml")
                                 copied])%list.
Proof.
  intros Hfonts Hcopy Herr. unfold CreatePublication. rewrite Hfonts.
  unfold bind, on_files.
  destruct (Utility_CopyFiles (GetFullPathToMainFolder book) fullfolderpath (w_files w))
    as [e fs]. cbn [fst] in Hcopy. subst e.
  destruct (CreateEncryptionXML_copies book (fullfolderpath ++ METAINF_FOLDER_SUFFIX)
              (set_files fs w) Herr) as [Hok [copied Htrace]].
  split; [exact Hok | ]. exists copied. unfold calls. rewrite Htrace.
  cbn [rev w_trace set_files]. unfold manifest_path, next_temporary_file.
  cbn [w_next_temp set_files]. rewrite string_app_assoc. reflexivity.
Qed.

(** X16: a failure of staging aborts the export.  When the copy of the
    book's folder to the scratch directory throws, [WriteBook] throws the
    same exception; no font is obfuscated, no archive is opened, no call
    is logged, and the scratch directory is gone. *)
Theorem staging_failure_aborts_export (this : ExportEPUB Book) w e :
  let book :=
    AddSigilVersionMeta
      (if HasObfuscatedFonts (m_Book this)
       then EnsureUUIDIdentifierPresent (m_Book this) else m_Book this) in
  let tempfolder := TempFolder.path_for (w_next_temp w) in
  let saved := SaveAllResourcesToDisk book (w_files w) in
  fst saved = None ->
  fst (Utility_CopyFiles (GetFullPathToMainFolder book) tempfolder (snd saved)) = Some e ->
  fst (WriteBook this w) = Throw e /\
  w_trace (snd (WriteBook this w)) = w_trace w /\
  w_zip (snd (WriteBook this w)) = w_zip w /\
  ~ In tempfolder (w_tempdirs (snd (WriteBook this w))).
Proof.
  cbv zeta. intros Hsaved Hcopy.
  destruct (WriteBook this w) as [r w'] eqn:H. cbn [fst snd].
  unfold WriteBook in H. cbv zeta in H.
  set (book := AddSigilVersionMeta _) in *.
  assert (Hon : forall f w0 e0 fs0, f (w_files w0) = (e0, fs0) ->
                  on_files f w0
                  = (match e0 with None => Ok tt | Some x => Throw x end, set_files fs0 w0)).
  { intros f w0 e0 fs0 Hf. unfold on_files. now rewrite Hf. }
  destruct (SaveAllResourcesToDisk book (w_files w)) as [e1 fs1] eqn:Es.
  cbn [fst snd] in Hsaved, Hcopy. subst e1.
  run_bind H u w1 E1; rewrite (Hon _ _ _ _ Es) in E1; [ | discriminate].
  injection E1 as _ <-.
  unfold scoped, TempFolder.ctor, TempFolder.GetPath in H. cbn [w_next_temp set_files] in H.
  match type of H with
  | (let (_, _) := ?body in _) = _ => destruct body as [res w2] eqn:Eb
  end.
  injection H as <- <-.
  destruct (Utility_CopyFiles (GetFullPathToMainFolder book)
              (TempFolder.path_for (w_next_temp w)) fs1) as [e2 fs2] eqn:Ec.
  cbn [fst] in Hcopy. subst e2.
  apply bind_inv in Eb. destruct Eb as [(u2 & w3 & E2 & _) | (x & E2 & ->)];
    unfold CreatePublication in E2; apply bind_inv in E2;
    destruct E2 as [(u3 & w4 & E3 & _) | (y & E3 & Hy)];
    unfold on_files in E3; cbn [w_files set_temp set_files] in E3;
    rewrite Ec in E3; try discriminate.
  injection E3 as <- <-. injection Hy as ->.
  split; [reflexivity | ]. split; [reflexivity | ]. split; [reflexivity | ].
  apply TempFolder_dtor_removes.
Qed.

(** X17: an export that returns, and in which no close of an entry or
    of the archive failed, leaves the archive at the path given to the
    exporter closed, with no entry open, and starting with the entry
    line 130 opens for the MIME type. *)
Theorem export_success_leaves_archive (this : ExportEPUB Book) w w' :
  WriteBook this w = (Ok tt, w') ->
  closes_succeeded w w' ->
  exists first rest,
    w_zip w' = Some (mkZipFile (m_FullFilePath this) (first :: rest) None true) /\
    ze_header first = mimetype_header.
Proof.
  intros H _. unfold WriteBook in H. cbv zeta in H.
  run_bind H u w1 E1; [ | discriminate]. clear E1.
  unfold scoped, TempFolder.ctor in H.
  match type of H with
  | (let (_, _) := ?body in _) = _ => destruct body as [res w2] eqn:Eb
  end.
  injection H as -> <-.
  run_bind Eb u2 w3 E2; [ | discriminate]. clear E2.
  run_bind Eb u3 w4 E3; [ | discriminate]. clear E3.
  apply SaveFolderAsEpubToLocation_outcome in Eb. cbv zeta in Eb.
  destruct Eb as (rest & Hz & _).
  exists (mkZipEntry mimetype_header (c_string (w_freed w4))), rest.
  split; [exact Hz | reflexivity].
Qed.

(** X18: a book without obfuscated fonts is exported without a call of
    [FontObfuscation::ObfuscateFile] and without a copy of an encryption
    manifest: every call the export logs is one of the archive writer,
    to minizip or to a staged file. *)
Theorem export_without_obfuscation (this : ExportEPUB Book) w :
  let book :=
    AddSigilVersionMeta
      (if HasObfuscatedFonts (m_Book this)
       then EnsureUUIDIdentifierPresent (m_Book this) else m_Book this) in
  HasObfuscatedFonts book = false ->
  exists added,
    w_trace (snd (WriteBook this w)) = (added ++ w_trace w)%list /\
    Forall (fun ev => archive_call ev = true) added.
Proof.
  cbv zeta. intros Hnone.
  assert (Hlogs : only_logs archive (WriteBook this)).
  { unfold WriteBook. cbv zeta. rewrite Hnone.
    apply only_logs_bind; [apply only_logs_on_files | intros _].
    apply only_logs_scoped.
    - intros w0 r w0' H. unfold TempFolder.ctor in H. injection H as _ <-. now exists [].
    - intros tempfolder.
      apply only_logs_bind; [ | intros _; apply only_logs_bind;
                                 [apply only_logs_ret | intros _;
                                  apply (only_logs_SaveFolderAsEpubToLocation
                                           archive transfer_archive open_archive)]].
      unfold CreatePublication. rewrite Hnone.
      apply only_logs_bind; [apply only_logs_on_files | intros _; apply only_logs_ret].
    - intros r w0. reflexivity. }
  destruct (WriteBook this w) as [r w'] eqn:H. apply Hlogs in H. exact H.
Qed.

End ExportMore.

Lemma manifest_goes_to_META_INF_witness :
  HasObfuscatedFonts stale_manifest_book = true
  /\ fst (Utility_CopyFiles (GetFullPathToMainFolder stale_manifest_book) "/stage"
                            (w_files stale_manifest_world)) = None
  /\ w_tmpfile_error stale_manifest_world = None
  /\ fst (CreatePublication stale_manifest_book "/stage" stale_manifest_world) = Ok tt
  /\ exists copied,
       calls (snd (CreatePublication stale_manifest_book "/stage" stale_manifest_world))
       = (calls stale_manifest_world
          ++ [Ev_QFile_copy (next_temporary_file stale_manifest_world)
                            "/stage/META-INF/encryption.xml" copied])%list.
Proof.
  split; [reflexivity | ]. split; [reflexivity | ]. split; [reflexivity | ].
  exact (manifest_goes_to_META_INF stale_manifest_book "/stage" stale_manifest_world
           eq_refl eq_refl eq_refl).
Defined.

Lemma staging_failure_aborts_export_witness :
  let this := mkExportEPUB "/out.epub" stale_manifest_book in
  fst (@SaveAllResourcesToDisk _ failing_copy_model stale_manifest_book
         (w_files stale_manifest_world)) = None
  /\ fst (@Utility_CopyFiles _ failing_copy_model "/book" "/tmp/Sigil/scratchpad/0"
            (w_files stale_manifest_world))
     = Some (CannotOpenFile_at "/tmp/Sigil/scratchpad/0")
  /\ fst (@WriteBook _ failing_copy_model this stale_manifest_world)
     = Throw (CannotOpenFile_at "/tmp/Sigil/scratchpad/0")
  /\ w_trace (snd (@WriteBook _ failing_copy_model this stale_manifest_world))
     = w_trace stale_manifest_world.
Proof.
  cbv zeta. split; [reflexivity | ]. split; [reflexivity | ].
  pose proof (@staging_failure_aborts_export _ failing_copy_model
                (mkExportEPUB "/out.epub" stale_manifest_book) stale_manifest_world
                (CannotOpenFile_at "/tmp/Sigil/scratchpad/0") eq_refl eq_refl)
    as (Hr & Ht & _ & _).
  split; [exact Hr | exact Ht].
Defined.

Lemma export_success_leaves_archive_witness :
  let this := mkExportEPUB "/out.epub" stale_manifest_book in
  WriteBook this stale_manifest_world = (Ok tt, snd (WriteBook this stale_manifest_world))
  /\ closes_succeeded stale_manifest_world (snd (WriteBook this stale_manifest_world))
  /\ exists first rest,
       w_zip (snd (WriteBook this stale_manifest_world))
       = Some (mkZipFile "/out.epub" (first :: rest) None true) /\
       ze_header first = mimetype_header.
Proof.
  cbv zeta.
  assert (Hrun : WriteBook (mkExportEPUB "/out.epub" stale_manifest_book) stale_manifest_world
                 = (Ok tt, snd (WriteBook (mkExportEPUB "/out.epub" stale_manifest_book)
                                          stale_manifest_world)))
    by (vm_compute; reflexivity).
  assert (Hcloses : closes_succeeded stale_manifest_world
                      (snd (WriteBook (mkExportEPUB "/out.epub" stale_manifest_book)
                                      stale_manifest_world))).
  { exists (w_trace (snd (WriteBook (mkExportEPUB "/out.epub" stale_manifest_book)
                                    stale_manifest_world))).
    split; vm_compute; reflexivity. }
  split; [exact Hrun | ]. split; [exact Hcloses | ].
  exact (export_success_leaves_archive (mkExportEPUB "/out.epub" stale_manifest_book)
           stale_manifest_world _ Hrun Hcloses).
Defined.

Lemma export_without_obfuscation_witness :
  let this := mkExportEPUB "/out.epub" untagged_font_book in
  HasObfuscatedFonts untagged_font_book = false
  /\ exists added,
       w_trace (snd (WriteBook this two_files_stage))
       = (added ++ w_trace two_files_stage)%list /\
       Forall (fun ev => archive_call ev = true) added.
Proof.
  cbv zeta. split; [reflexivity | ].
  exact (export_without_obfuscation (mkExportEPUB "/out.epub" untagged_font_book)
           two_files_stage eq_refl).
Defined.
